(** * podtailer: the pod-set reconciler of the Kubernetes log agent

    A shallow embedding of [podtailer/podtailer.go]: the log-path resolver
    [determineLogPattern], the file-name filter [determineFilterFunc], the
    per-pod constructor [watcherForPod] and the reconciliation loop [run],
    together with the fragments of Go's [regexp] and [path/filepath]
    packages that the filter and the glob pattern rely on.

    Go strings are byte strings: they are modelled by [string], and a
    byte slice [[]byte] by [list ascii]. *)

From stdpp Require Import gmap strings list.
From Stdlib Require Import Ascii.

Local Open Scope stdpp_scope.

(** ** Bytes and strings *)

(** The conversion [[]byte(s)]. *)
Fixpoint bytes (s : string) : list ascii :=
  match s with
  | EmptyString => []
  | String c s' => c :: bytes s'
  end.

(** The conversion [string(b)]. *)
Fixpoint of_bytes (b : list ascii) : string :=
  match b with
  | [] => EmptyString
  | c :: b' => String c (of_bytes b')
  end.

Definition byte_eqb (a b : ascii) : bool := Ascii.eqb a b.

Definition code (c : ascii) : N := N_of_ascii c.

(** [c < utf8.RuneSelf] *)
Definition is_ascii (c : ascii) : bool := (code c <? 128)%N.

Definition is_alnum (c : ascii) : bool :=
  ((48 <=? code c) && (code c <=? 57) ||
   (65 <=? code c) && (code c <=? 90) ||
   (97 <=? code c) && (code c <=? 122))%N.

Definition is_nil {A} (l : list A) : bool :=
  match l with [] => true | _ => false end.

(** All ways of cutting a byte slice in two. *)
Fixpoint splits (s : list ascii) : list (list ascii * list ascii) :=
  ([], s) ::
  match s with
  | [] => []
  | c :: s' => map (fun p => (c :: fst p, snd p)) (splits s')
  end.

(** ** Package regexp (fragment)

    The pattern language handled here is the ASCII core of RE2 syntax:
    literals, [.], escaped punctuation, bracket classes made of plain
    characters and ranges, the anchors [^] and [$] (no flags, so they
    mean beginning and end of text), the postfix operators [*], [+], [?]
    and top-level alternation.  Everything else that Go accepts (groups,
    counted repetition, Perl classes, flags, lazy operators, non-ASCII
    pattern bytes) is reported as [ErrOutsideFragment]; statements that
    quantify over patterns stay inside the fragment.  The text is read
    byte by byte, as Go reads ASCII text; on other text [.] and a
    negated class consume one byte where Go consumes one rune. *)
Module regexp.

Inductive Error := ErrSyntax | ErrOutsideFragment.

(** The operators of [regexp/syntax] that the fragment produces. *)
Inductive Regexp :=
| OpEmptyMatch
| OpLiteral (c : ascii)
| OpAnyCharNotNL
| OpCharClass (negated : bool) (ranges : list (ascii * ascii))
| OpBeginText
| OpEndText
| OpConcat (r1 r2 : Regexp)
| OpAlternate (r1 r2 : Regexp)
| OpStar (r : Regexp)
| OpPlus (r : Regexp)
| OpQuest (r : Regexp).

Inductive Token :=
| TLit (c : ascii)
| TDot
| TClass (negated : bool) (ranges : list (ascii * ascii))
| TBegin
| TEnd
| TStar
| TPlus
| TQuest
| TBar.

Definition one_of (set : string) (c : ascii) : bool :=
  existsb (byte_eqb c) (bytes set).

(** The bytes [\.+*?()|[]{}^$] that [QuoteMeta] escapes. *)
Definition special (c : ascii) : bool := one_of "\.+*?()|[]{}^$" c.

(** [regexp.QuoteMeta] on bytes. *)
Fixpoint quote_bytes (s : list ascii) : list ascii :=
  match s with
  | [] => []
  | c :: s' =>
      if special c then "\"%char :: c :: quote_bytes s' else c :: quote_bytes s'
  end.

Definition QuoteMeta (s : string) : string := of_bytes (quote_bytes (bytes s)).

(** *** Lexing *)

Inductive Mode :=
| Top
| Escape
| ClassOpen
| ClassBody (negated : bool) (ranges : list (ascii * ascii)) (pending : option ascii)
| ClassDash (negated : bool) (ranges : list (ascii * ascii)) (lo : ascii).

Definition class_member (c : ascii) : bool :=
  is_ascii c && negb (one_of "\[]-^" c).

Definition flush (ranges : list (ascii * ascii)) (pending : option ascii)
  : list (ascii * ascii) :=
  match pending with
  | Some p => ranges ++ [(p, p)]
  | None => ranges
  end.

Definition emit (t : Token) (k : Error + list Token) : Error + list Token :=
  match k with
  | inl e => inl e
  | inr ts => inr (t :: ts)
  end.

(** What a byte means at the top level of a pattern. *)
Inductive TopByte :=
| BBackslash
| BOpenClass
| BToken (t : Token)
| BOutside.

Definition top_byte (c : ascii) : TopByte :=
  if byte_eqb c "\" then BBackslash
  else if byte_eqb c "." then BToken TDot
  else if byte_eqb c "*" then BToken TStar
  else if byte_eqb c "+" then BToken TPlus
  else if byte_eqb c "?" then BToken TQuest
  else if byte_eqb c "|" then BToken TBar
  else if byte_eqb c "^" then BToken TBegin
  else if byte_eqb c "$" then BToken TEnd
  else if byte_eqb c "[" then BOpenClass
  else if one_of "(){}]" c then BOutside
  else if is_ascii c then BToken (TLit c)
  else BOutside.

Fixpoint lex (m : Mode) (s : list ascii) : Error + list Token :=
  match s with
  | [] =>
      match m with
      | Top => inr []
      | _ => inl ErrSyntax
      end
  | c :: s' =>
      match m with
      | Top =>
          match top_byte c with
          | BBackslash => lex Escape s'
          | BOpenClass => lex ClassOpen s'
          | BToken t => emit t (lex Top s')
          | BOutside => inl ErrOutsideFragment
          end
      | Escape =>
          if is_ascii c && negb (is_alnum c) then emit (TLit c) (lex Top s')
          else inl ErrOutsideFragment
      | ClassOpen =>
          if byte_eqb c "^" then lex (ClassBody true [] None) s'
          else if class_member c then lex (ClassBody false [] (Some c)) s'
          else inl ErrOutsideFragment
      | ClassBody neg ranges pending =>
          if byte_eqb c "]" then
            match flush ranges pending with
            | [] => inl ErrOutsideFragment
            | rs => emit (TClass neg rs) (lex Top s')
            end
          else if byte_eqb c "-" then
            match pending with
            | Some lo => lex (ClassDash neg ranges lo) s'
            | None => inl ErrOutsideFragment
            end
          else if class_member c
          then lex (ClassBody neg (flush ranges pending) (Some c)) s'
          else inl ErrOutsideFragment
      | ClassDash neg ranges lo =>
          if class_member c then
            if (code lo <=? code c)%N
            then lex (ClassBody neg (ranges ++ [(lo, c)]) None) s'
            else inl ErrSyntax
          else inl ErrOutsideFragment
      end
  end.

(** *** Parsing *)

Definition is_repeat (t : Token) : bool :=
  match t with TStar | TPlus | TQuest => true | _ => false end.

Definition atom (t : Token) : Regexp :=
  match t with
  | TLit c => OpLiteral c
  | TDot => OpAnyCharNotNL
  | TClass neg rs => OpCharClass neg rs
  | TBegin => OpBeginText
  | TEnd => OpEndText
  | _ => OpEmptyMatch
  end.

Definition repeat (q : Token) (r : Regexp) : Regexp :=
  match q with
  | TStar => OpStar r
  | TPlus => OpPlus r
  | TQuest => OpQuest r
  | _ => r
  end.

Definition cons_piece (r : Regexp) (k : Error + Regexp) : Error + Regexp :=
  match k with
  | inl e => inl e
  | inr rest => inr (OpConcat r rest)
  end.

(** One alternation branch: pieces, each an atom with at most one
    postfix operator.  A repetition operator with nothing to repeat is
    a syntax error, a second operator in a row is either one (double
    repetition) or a lazy operator, which the fragment leaves out. *)
Fixpoint parse_seq (ts : list Token) : Error + Regexp :=
  match ts with
  | [] => inr OpEmptyMatch
  | t :: rest =>
      if is_repeat t then inl ErrSyntax
      else
        match rest with
        | q :: rest' =>
            if is_repeat q then
              match rest' with
              | q' :: _ =>
                  if is_repeat q'
                  then inl (match q' with
                            | TQuest => ErrOutsideFragment
                            | _ => ErrSyntax
                            end)
                  else cons_piece (repeat q (atom t)) (parse_seq rest')
              | [] => cons_piece (repeat q (atom t)) (parse_seq rest')
              end
            else cons_piece (atom t) (parse_seq rest)
        | [] => cons_piece (atom t) (parse_seq rest)
        end
  end.

(** The token list cut at every [|]. *)
Fixpoint branches (ts : list Token) : list (list Token) :=
  match ts with
  | [] => [[]]
  | TBar :: rest => [] :: branches rest
  | t :: rest =>
      match branches rest with
      | b :: bs => (t :: b) :: bs
      | [] => [[t]]
      end
  end.

Fixpoint parse_alt (bs : list (list Token)) : Error + Regexp :=
  match bs with
  | [] => inr OpEmptyMatch
  | [b] => parse_seq b
  | b :: bs' =>
      match parse_seq b, parse_alt bs' with
      | inr r1, inr r2 => inr (OpAlternate r1 r2)
      | inl e, _ => inl e
      | _, inl e => inl e
      end
  end.

(** [regexp.Compile] *)
Definition Compile (expr : string) : Error + Regexp :=
  match lex Top (bytes expr) with
  | inl e => inl e
  | inr ts => parse_alt (branches ts)
  end.

(** A run of literal bytes in front of [k]. *)
Definition literal (p : list ascii) (k : Regexp) : Regexp :=
  foldr (fun c r => OpConcat (OpLiteral c) r) k p.

(** *** Matching *)

Definition in_range (c : ascii) (r : ascii * ascii) : bool :=
  ((code (fst r) <=? code c) && (code c <=? code (snd r)))%N.

Definition in_class (negated : bool) (ranges : list (ascii * ascii)) (c : ascii) : bool :=
  xorb negated (existsb (in_range c) ranges).

Definition newline : ascii := "010"%char.

(** Iteration for [*]: zero rounds, or a first round that consumes at
    least one byte followed by more rounds on what is left. *)
Fixpoint star_rounds (m : bool -> bool -> list ascii -> bool)
    (fuel : nat) (at_begin at_end : bool) (s : list ascii) : bool :=
  if is_nil s then true
  else
    match fuel with
    | O => false
    | S fuel' =>
        existsb (fun p =>
                   if is_nil (fst p) then false
                   else if m at_begin (at_end && is_nil (snd p)) (fst p)
                   then star_rounds m fuel' false at_end (snd p)
                   else false)
                (splits s)
    end.

(** [matches r at_begin at_end s]: the expression [r] matches exactly
    the bytes [s], where [at_begin] says that [s] starts at the
    beginning of the text and [at_end] that it stops at its end. *)
Fixpoint matches (r : Regexp) (at_begin at_end : bool) (s : list ascii) : bool :=
  match r with
  | OpEmptyMatch => is_nil s
  | OpLiteral c =>
      match s with [c'] => byte_eqb c c' | _ => false end
  | OpAnyCharNotNL =>
      match s with [c'] => negb (byte_eqb c' newline) | _ => false end
  | OpCharClass neg rs =>
      match s with [c'] => in_class neg rs c' | _ => false end
  | OpBeginText => is_nil s && at_begin
  | OpEndText => is_nil s && at_end
  | OpConcat r1 r2 =>
      existsb (fun p =>
                 if matches r1 at_begin (at_end && is_nil (snd p)) (fst p)
                 then matches r2 (at_begin && is_nil (fst p)) at_end (snd p)
                 else false)
              (splits s)
  | OpAlternate r1 r2 =>
      if matches r1 at_begin at_end s then true else matches r2 at_begin at_end s
  | OpStar r1 => star_rounds (matches r1) (length s) at_begin at_end s
  | OpPlus r1 =>
      existsb (fun p =>
                 if matches r1 at_begin (at_end && is_nil (snd p)) (fst p)
                 then star_rounds (matches r1) (length (snd p))
                        (at_begin && is_nil (fst p)) at_end (snd p)
                 else false)
              (splits s)
  | OpQuest r1 => if is_nil s then true else matches r1 at_begin at_end s
  end.

(** Unanchored search: some substring of [s] matches. *)
Definition search (r : Regexp) (s : list ascii) : bool :=
  existsb (fun p =>
             existsb (fun q => matches r (is_nil (fst p)) (is_nil (snd q)) (fst q))
                     (splits (snd p)))
          (splits s).

(** [regexp.Match(pattern, b)] with its two results. *)
Definition Match (pattern : string) (b : list ascii) : bool * option Error :=
  match Compile pattern with
  | inl e => (false, Some e)
  | inr re => (search re b, None)
  end.

End regexp.

(** ** Package path/filepath (fragment)

    The pattern that the resolver returns is a glob in the syntax of
    this package.  [filepath.Match] for patterns made of literal bytes, [?] and [*];
    neither wildcard matches the separator.  A pattern with a bracket
    class or an escape is outside the fragment ([None]). *)
Module filepath.

Definition Separator : ascii := "/"%char.

(** [k] tried after every run of non-separator bytes at the front of
    the name. *)
Fixpoint star (k : list ascii -> option bool) (name : list ascii) : option bool :=
  match k name with
  | Some false =>
      match name with
      | c :: name' => if byte_eqb c Separator then Some false else star k name'
      | [] => Some false
      end
  | r => r
  end.

Fixpoint match_bytes (pattern name : list ascii) : option bool :=
  match pattern with
  | [] => Some (is_nil name)
  | p :: pattern' =>
      if byte_eqb p "*" then star (match_bytes pattern') name
      else if byte_eqb p "?" then
        match name with
        | c :: name' =>
            if byte_eqb c Separator then Some false else match_bytes pattern' name'
        | [] => Some false
        end
      else if byte_eqb p "[" || byte_eqb p "\" then None
      else
        match name with
        | c :: name' => if byte_eqb p c then match_bytes pattern' name' else Some false
        | [] => Some false
        end
  end.

Definition Match (pattern name : string) : option bool :=
  match_bytes (bytes pattern) (bytes name).

End filepath.

(** ** The world outside the package *)

(** Go [error] values, by their message; [None] is [nil]. *)
Definition error := string.

Module v1.
(** The fields of [v1.Pod] that the package reads; [types.UID] is a
    string type. *)
Record Pod := {
  Name : string;
  Namespace : string;
  UID : string;
  Annotations : gmap string string;
}.
End v1.

Module config.
(** The fields of [config.WatcherConfig] that the package reads.
    [LabelSelector] is a [*string]: [None] is the nil pointer. *)
Record WatcherConfig := {
  LabelSelector : option string;
  Namespace : string;
  ContainerName : string;
}.
End config.

Module handlers.
(** The result of [handlers.NewLineHandlerFactoryFromConfig]; the
    metadata processor it carries is bound to one pod. *)
Record LineHandlerFactory := { processorUID : string }.
End handlers.

Module tailer.
(** A [*tailer.PathWatcher]: [addr] is the address of the allocated
    object, the rest are the arguments of [tailer.NewPathWatcher].
    A nil [filter] is [None]. *)
Record PathWatcher := {
  addr : nat;
  pattern : string;
  filter : option (string -> bool);
  handlerFactory : handlers.LineHandlerFactory;
}.

(** Modelled from the spec: the watcher's use of its filter is in the
    tailer package; the filter is an optional predicate over file
    names and a missing one accepts every file. *)
Definition accepts (f : option (string -> bool)) (fileName : string) : bool :=
  match f with
  | None => true
  | Some p => p fileName
  end.
End tailer.

(** What the host answers while one event is handled: the error result
    of [os.Stat] for every path, and the result of the line-handler
    factory. *)
Record Host := {
  os_Stat : string -> option error;
  NewLineHandlerFactoryFromConfig :
    config.WatcherConfig -> string -> error + handlers.LineHandlerFactory;
}.

Inductive Level := InfoLevel | WarnLevel | ErrorLevel.

(** The calls that leave the package, in the order they are made. *)
Inductive Effect :=
| Stat (name : string)
| Log (level : Level) (msg : string) (fields : list (string * string))
| NewPodWatcher (namespace labelSelector nodeSelector : string)
| NewLineHandlerFactory (uid : string)
| NewPathWatcher (w : nat) (pattern : string)
| WatcherStart (w : nat)
| WatcherStop (w : nat)
| RecvStop
| WgAdd (delta : Z)
| WgDone.

(** Computations that make such calls. *)
Definition M (A : Type) : Type := A * list Effect.

Global Instance M_ret : MRet M := fun A a => (a, []).
Global Instance M_bind : MBind M := fun A B f m =>
  let r := f (fst m) in (fst r, snd m ++ snd r).

Definition call (e : Effect) : M unit := (tt, [e]).

Definition log (level : Level) (msg : string) (fields : list (string * string)) : M unit :=
  call (Log level msg fields).

Definition stat (h : Host) (name : string) : M (option error) :=
  (os_Stat h name, [Stat name]).

(** [err == nil] for the error of [os.Stat]. *)
Definition found (h : Host) (name : string) : bool :=
  match os_Stat h name with
  | None => true
  | Some _ => false
  end.

(** ** podtailer.go *)

(** The fields of [PodSetTailer] that decide what [run] does.  The
    transmitter, the state recorder and the client are handed on
    unchanged; the channel [stop] and the wait group [wg] show as the
    calls [RecvStop], [WgAdd] and [WgDone]. *)
Record PodSetTailer := {
  config : config.WatcherConfig;
  nodeSelector : string;
  legacyLogPaths : bool;
}.

Definition configHash : string := "kubernetes.io/config.hash".

Definition determineLogPattern (h : Host) (pod : v1.Pod) (legacyLogPaths : bool)
  : M (string * option error) :=
  if legacyLogPaths then
    mret ("/var/log/containers/" +:+ v1.Name pod +:+ "_" +:+ v1.Namespace pod +:+ "_*.log",
          None)
  else
    let by_uid : M (string * option error) :=
      let upath := "/var/log/pods/" +:+ v1.UID pod in
      err ← stat h upath;
      match err with
      | None => mret (upath +:+ "/*", None)
      | Some _ =>
          mret ("", Some ("Could not find specified log path for pod " +:+ v1.UID pod))
      end in
    match v1.Annotations pod !! configHash with
    | Some hash =>
        let hpath := "/var/log/pods/" +:+ hash in
        err ← stat h hpath;
        match err with
        | None =>
            log InfoLevel "Critical pod detected, using config.hash for log dir"
              [("PodName", v1.Name pod); ("UID", v1.UID pod); ("Hash", hash)];;
            mret (hpath +:+ "/*", None)
        | Some _ => by_uid
        end
    | None => by_uid
    end.

Definition determineFilterFunc (pod : v1.Pod) (containerName : string) (legacyLogPaths : bool)
  : option (string -> bool) :=
  if decide (containerName = "") then None
  else if legacyLogPaths then
    let re := "^/var/log/containers/" +:+ v1.Name pod +:+ "_" +:+ v1.Namespace pod
              +:+ "_" +:+ containerName +:+ "-.+\.log" in
    Some (fun fileName => fst (regexp.Match re (bytes fileName)))
  else
    let uid :=
      match v1.Annotations pod !! configHash with
      | Some hash => hash
      | None => v1.UID pod
      end in
    let re := "^/var/log/pods/" +:+ uid +:+ "/" +:+ regexp.QuoteMeta containerName
              +:+ "_[0-9]*\.log" in
    Some (fun fileName => fst (regexp.Match re (bytes fileName))).

(** [addr] is the address the next allocation of a [PathWatcher] gets. *)
Definition watcherForPod (pt : PodSetTailer) (h : Host) (addr : nat)
    (pod : v1.Pod) (containerName : string) : M (error + tailer.PathWatcher) :=
  r ← determineLogPattern h pod (legacyLogPaths pt);
  let pattern := fst r in
  match snd r with
  | Some _ => log WarnLevel "Error finding log path" [("Pod", v1.UID pod)]
  | None => mret tt
  end;;
  let filterFunc := determineFilterFunc pod containerName (legacyLogPaths pt) in
  call (NewLineHandlerFactory (v1.UID pod));;
  match NewLineHandlerFactoryFromConfig h (config pt) (v1.UID pod) with
  | inl err =>
      log ErrorLevel "Error setting up watcher" [("error", err)];;
      mret (inl err)
  | inr handlerFactory =>
      log InfoLevel "Setting up watcher for pod"
        [("Name", v1.Name pod); ("UID", v1.UID pod); ("Pattern", pattern)];;
      call (NewPathWatcher addr pattern);;
      mret (inr {| tailer.addr := addr;
                   tailer.pattern := pattern;
                   tailer.filter := filterFunc;
                   tailer.handlerFactory := handlerFactory |})
  end.

(** What one round of the [select] in [run] receives. *)
Inductive Event :=
| PodAdded (pod : v1.Pod)
| PodDeleted (uid : string)
| StopRequested.

(** The local state of [run]: [watcherMap], and the number of
    [PathWatcher]s allocated so far. *)
Record LoopState := {
  watcherMap : gmap string tailer.PathWatcher;
  allocated : nat;
}.

(** The value of the local [labelSelector] after the first [if]. *)
Definition labelSelector (user : string) : string :=
  if decide (user = "") then "k8s-app!=honeycomb-agent"
  else user +:+ ",k8s-app!=honeycomb-agent".

(** [case pod := <-podWatcher.Pods()] *)
Definition on_pod (pt : PodSetTailer) (h : Host) (st : LoopState) (pod : v1.Pod)
  : M LoopState :=
  r ← watcherForPod pt h (allocated st) pod (config.ContainerName (config pt));
  match r with
  | inl err =>
      log ErrorLevel "Error setting up watcher" [("error", err)];;
      mret st
  | inr watcher =>
      log InfoLevel "starting watcher for pod"
        [("name", v1.Name pod); ("uid", v1.UID pod); ("namespace", v1.Namespace pod)];;
      call (WatcherStart (tailer.addr watcher));;
      mret {| watcherMap := <[v1.UID pod := watcher]> (watcherMap st);
              allocated := S (allocated st) |}
  end.

(** [case deletedPodUID := <-podWatcher.DeletedPods()] *)
Definition on_deleted (st : LoopState) (deletedPodUID : string) : M LoopState :=
  match watcherMap st !! deletedPodUID with
  | Some watcher =>
      log InfoLevel "pod deleted, stopping watcher" [("uid", deletedPodUID)];;
      call (WatcherStop (tailer.addr watcher));;
      mret {| watcherMap := delete deletedPodUID (watcherMap st);
              allocated := allocated st |}
  | None => mret st
  end.

Inductive LoopExit :=
| Waiting   (* every event so far is handled, the select blocks *)
| Broke.    (* [break loop] *)

(** The [for { select { ... } }] loop on the events it receives, each
    with the host's answers at that moment. *)
Fixpoint loop (pt : PodSetTailer) (events : list (Host * Event)) (st : LoopState)
  : M (LoopState * LoopExit) :=
  match events with
  | [] => mret (st, Waiting)
  | (h, ev) :: rest =>
      match ev with
      | PodAdded pod => st' ← on_pod pt h st pod; loop pt rest st'
      | PodDeleted uid => st' ← on_deleted st uid; loop pt rest st'
      | StopRequested => call RecvStop;; mret (st, Broke)
      end
  end.

Definition not_stop (e : Host * Event) : Prop := snd e <> StopRequested.

Definition initial : LoopState := {| watcherMap := ∅; allocated := 0 |}.

(** The order in which a [range] over the map visits it: any
    enumeration of its entries. *)
Record RangeOrder := {
  range : gmap string tailer.PathWatcher -> list (string * tailer.PathWatcher);
  range_perm : forall m, range m ≡ₚ map_to_list m;
}.

(** [for key := range watcherMap { watcherMap[key].Stop() }]; the entry
    visited under [key] is [watcherMap[key]]. *)
Definition stop_all (order : RangeOrder) (m : gmap string tailer.PathWatcher) : M unit :=
  (tt, map (fun kw => WatcherStop (tailer.addr (snd kw))) (range order m)).

Inductive Exit :=
| Returned
| Blocked     (* still in the select *)
| Panicked.   (* nil pointer dereference of [LabelSelector] *)

(** [run], with the deferred [pt.wg.Done()] as its last call. *)
Definition run (pt : PodSetTailer) (order : RangeOrder) (events : list (Host * Event))
  : M Exit :=
  match config.LabelSelector (config pt) with
  | None => call WgDone;; mret Panicked
  | Some user =>
      call (NewPodWatcher (config.Namespace (config pt)) (labelSelector user)
              (nodeSelector pt));;
      r ← loop pt events initial;
      match snd r with
      | Waiting => mret Blocked
      | Broke =>
          stop_all order (watcherMap (fst r));;
          call WgDone;;
          mret Returned
      end
  end.

(** [Start]: [pt.wg.Add(1)], then the goroutine runs. *)
Definition Start (pt : PodSetTailer) (order : RangeOrder) (events : list (Host * Event))
  : M Exit :=
  call (WgAdd 1);; run pt order events.

(** The counter of [pt.wg] after a trace. *)
Fixpoint wg_counter (tr : list Effect) : Z :=
  match tr with
  | [] => 0
  | WgAdd d :: tr' => d + wg_counter tr'
  | WgDone :: tr' => wg_counter tr' - 1
  | _ :: tr' => wg_counter tr'
  end.

(** [Stop] is [pt.stop <- true; pt.wg.Wait()]: it can have returned
    after the calls [tr] only if the loop has received from [pt.stop]
    and the counter of [pt.wg] is back to zero. *)
Definition Stop_returns (tr : list Effect) : Prop :=
  In RecvStop tr /\ wg_counter tr = 0%Z.

(** ** Reading traces and registries *)

Definition starts (tr : list Effect) : list nat :=
  omap (fun e => match e with WatcherStart w => Some w | _ => None end) tr.

Definition stops (tr : list Effect) : list nat :=
  omap (fun e => match e with WatcherStop w => Some w | _ => None end) tr.

(** The watcher at address [w] has been told to start and has not been
    told to stop. *)
Definition live (tr : list Effect) (w : nat) : Prop :=
  w ∈ starts tr /\ w ∉ stops tr.

(** The watcher at address [w] is an entry of the registry. *)
Definition registered (st : LoopState) (w : nat) : Prop :=
  exists uid pw, watcherMap st !! uid = Some pw /\ tailer.addr pw = w.

(** The registry holds exactly the live watchers. *)
Definition registry_tracks_live (st : LoopState) (tr : list Effect) : Prop :=
  forall w, registered st w <-> live tr w.

(** What the loop maintains: every entry is a live watcher, addresses
    in the trace have been allocated, only started watchers are stopped,
    and two entries never share a watcher. *)
Definition registry_sound (st : LoopState) (tr : list Effect) : Prop :=
  (forall uid pw, watcherMap st !! uid = Some pw -> live tr (tailer.addr pw))
  /\ (forall w, w ∈ starts tr -> w < allocated st)
  /\ (forall w, w ∈ stops tr -> w ∈ starts tr)
  /\ (forall uid1 uid2 pw1 pw2,
        watcherMap st !! uid1 = Some pw1 -> watcherMap st !! uid2 = Some pw2 ->
        tailer.addr pw1 = tailer.addr pw2 -> uid1 = uid2).

(** Every live watcher is an entry. *)
Definition registry_complete (st : LoopState) (tr : list Effect) : Prop :=
  forall w, live tr w -> registered st w.

(** Calls that leave the counter of [pt.wg] alone. *)
Definition no_wg (e : Effect) : Prop :=
  match e with
  | WgAdd _ | WgDone => False
  | _ => True
  end.

(** The calls of the final [range] loop over the registry [m]. *)
Definition drain (order : RangeOrder) (m : gmap string tailer.PathWatcher) : list Effect :=
  (fun kw => WatcherStop (tailer.addr (snd kw))) <$> range order m.

(** The calls a handler of the loop body can make. *)
Definition in_loop_body (e : Effect) : bool :=
  match e with
  | NewPodWatcher _ _ _ | RecvStop | WgAdd _ | WgDone => false
  | _ => true
  end.

(** The calls of [watcherForPod] up to its use of the factory. *)
Definition resolve_calls (pt : PodSetTailer) (h : Host) (pod : v1.Pod) : list Effect :=
  let r := determineLogPattern h pod (legacyLogPaths pt) in
  snd r ++
  match snd (fst r) with
  | Some _ => [Log WarnLevel "Error finding log path" [("Pod", v1.UID pod)]]
  | None => []
  end.

(** The watcher that [watcherForPod] allocates at address [addr]. *)
Definition new_watcher (pt : PodSetTailer) (h : Host) (addr : nat) (pod : v1.Pod)
    (hf : handlers.LineHandlerFactory) : tailer.PathWatcher :=
  {| tailer.addr := addr;
     tailer.pattern := fst (fst (determineLogPattern h pod (legacyLogPaths pt)));
     tailer.filter := determineFilterFunc pod (config.ContainerName (config pt))
                        (legacyLogPaths pt);
     tailer.handlerFactory := hf |}.

(** No pod-added event arrives while its UID is in the registry. *)
Fixpoint adds_are_fresh (pt : PodSetTailer) (events : list (Host * Event))
    (st : LoopState) : Prop :=
  match events with
  | [] => True
  | (h, PodAdded pod) :: rest =>
      watcherMap st !! v1.UID pod = None /\
      adds_are_fresh pt rest (fst (on_pod pt h st pod))
  | (h, PodDeleted uid) :: rest => adds_are_fresh pt rest (fst (on_deleted st uid))
  | (_, StopRequested) :: _ => True
  end.

(** Bytes that stand for themselves in a pattern of [regexp]. *)
Definition literal_byte (c : ascii) : bool :=
  is_ascii c && negb (regexp.special c).

(** Bytes that stand for themselves in a pattern of [regexp] and in one
    of [filepath], and do not separate path elements. *)
Definition plain_byte (c : ascii) : bool :=
  literal_byte c && negb (byte_eqb c filepath.Separator).

Definition plain (s : string) : bool := forallb plain_byte (bytes s).

(** The pattern of the filter for the new layout, for the directory
    [dir] and the container [containerName]. *)
Definition pods_filter_pattern (dir containerName : string) : string :=
  "^/var/log/pods/" +:+ dir +:+ "/" +:+ regexp.QuoteMeta containerName +:+ "_[0-9]*\.log".

(** What [regexp] makes of the end [_[0-9]*\.log] of that pattern. *)
Definition pods_filter_tail : regexp.Regexp :=
  regexp.OpConcat (regexp.OpLiteral "_")
    (regexp.OpConcat (regexp.OpStar (regexp.OpCharClass false [("0"%char, "9"%char)]))
       (regexp.literal (bytes ".log") regexp.OpEmptyMatch)).

(** ** Sample inputs *)

Module sample.

(** A host on which no log directory exists and the factory works. *)
Definition bare : Host :=
  {| os_Stat := fun _ => Some "stat: no such file or directory";
     NewLineHandlerFactoryFromConfig := fun _ uid =>
       inr {| handlers.processorUID := uid |} |}.

(** A host on which the listed paths exist. *)
Definition host_with (paths : list string) : Host :=
  {| os_Stat := fun p => if bool_decide (p ∈ paths) then None
                         else Some "stat: no such file or directory";
     NewLineHandlerFactoryFromConfig := fun _ uid =>
       inr {| handlers.processorUID := uid |} |}.

(** A host whose factory rejects the configuration. *)
Definition misconfigured : Host :=
  {| os_Stat := fun _ => None;
     NewLineHandlerFactoryFromConfig := fun _ _ => inl "unknown parser" |}.

Definition web1 : v1.Pod :=
  {| v1.Name := "web-1"; v1.Namespace := "default"; v1.UID := "u-1";
     v1.Annotations := ∅ |}.

Definition agent (user : string) (containerName : string) (legacy : bool) : PodSetTailer :=
  {| config := {| config.LabelSelector := Some user;
                  config.Namespace := "default";
                  config.ContainerName := containerName |};
     nodeSelector := "spec.nodeName=node-1";
     legacyLogPaths := legacy |}.

Definition in_map_order : RangeOrder :=
  {| range := map_to_list; range_perm := fun m => reflexivity (map_to_list m) |}.

End sample.

(** ** Shapes of names and traces *)

(** The pattern of the filter for the legacy layout. *)
Definition legacy_filter_pattern (name namespace containerName : string) : string :=
  "^/var/log/containers/" +:+ name +:+ "_" +:+ namespace +:+ "_" +:+ containerName
  +:+ "-.+\.log".

(** What [regexp] makes of the end [-.+\.log] of that pattern. *)
Definition legacy_filter_tail : regexp.Regexp :=
  regexp.OpConcat (regexp.OpLiteral "-")
    (regexp.OpConcat (regexp.OpPlus regexp.OpAnyCharNotNL)
       (regexp.literal (bytes ".log") regexp.OpEmptyMatch)).

Definition digit (c : ascii) : bool := ((48 <=? code c) && (code c <=? 57))%N.

Definition not_newline (c : ascii) : bool := negb (byte_eqb c regexp.newline).

Definition not_separator (c : ascii) : bool := negb (byte_eqb c filepath.Separator).

(** Strings all of whose bytes satisfy [p]. *)
Definition all_bytes (p : ascii -> bool) (s : string) : bool := forallb p (bytes s).

(** Bytes that stand for themselves in a pattern of [filepath]. *)
Definition glob_literal (c : ascii) : bool := negb (regexp.one_of "*?[\" c).

(** The paths handed to [os.Stat], in order. *)
Definition stat_paths (tr : list Effect) : list string :=
  omap (fun e => match e with Stat name => Some name | _ => None end) tr.

(** The addresses of the watchers constructed, in order. *)
Definition constructed (tr : list Effect) : list nat :=
  omap (fun e => match e with NewPathWatcher w _ => Some w | _ => None end) tr.

(** The UIDs of the pods of the added events. *)
Definition added_uids (events : list (Host * Event)) : list string :=
  omap (fun e => match snd e with PodAdded pod => Some (v1.UID pod) | _ => None end) events.

(** The number of added events, up to the shutdown request, that put a
    new watcher in the place of a registered one. *)
Fixpoint replacements (pt : PodSetTailer) (events : list (Host * Event))
    (st : LoopState) : nat :=
  match events with
  | [] => 0
  | (h, PodAdded pod) :: rest =>
      match watcherMap st !! v1.UID pod,
            NewLineHandlerFactoryFromConfig h (config pt) (v1.UID pod) with
      | Some _, inr _ => 1
      | _, _ => 0
      end + replacements pt rest (fst (on_pod pt h st pod))
  | (h, PodDeleted uid) :: rest => replacements pt rest (fst (on_deleted st uid))
  | (_, StopRequested) :: _ => 0
  end.

(** ** Proof automation *)

(** Unfolds the monad of calls down to pairs. *)
Ltac unfold_M :=
  unfold mbind, M_bind, mret, M_ret, call, log, stat in *; cbn [fst snd app] in *.

(** Settles a fact about one byte by going through the 256 of them. *)
Ltac by_byte c H :=
  destruct c as [[] [] [] [] [] [] [] []]; vm_compute in H |- *;
  first [congruence | by repeat split].

(** ** Facts about bytes and the regexp fragment *)

Lemma bytes_app (s t : string) : bytes (s +:+ t) = bytes s ++ bytes t.
Proof. induction s as [|c s IH]; [done|]. cbn. by rewrite <- IH. Qed.

Lemma bytes_of_bytes (b : list ascii) : bytes (of_bytes b) = b.
Proof. induction b as [|c b IH]; [done|]. cbn. by rewrite IH. Qed.

Lemma of_bytes_bytes (s : string) : of_bytes (bytes s) = s.
Proof. induction s as [|c s IH]; [done|]. cbn. by rewrite IH. Qed.

Lemma bytes_inj (s t : string) : bytes s = bytes t -> s = t.
Proof. intros H. by rewrite <- (of_bytes_bytes s), H, of_bytes_bytes. Qed.

Lemma byte_eqb_true (a b : ascii) : byte_eqb a b = true <-> a = b.
Proof. apply Ascii.eqb_eq. Qed.

Lemma is_nil_true {A} (l : list A) : is_nil l = true <-> l = [].
Proof. by destruct l. Qed.

Lemma in_splits (s s1 s2 : list ascii) : In (s1, s2) (splits s) <-> s = s1 ++ s2.
Proof.
  revert s1 s2. induction s as [|c s IH]; intros s1 s2; cbn.
  - split.
    + intros [H|[]]. by inversion H.
    + intros H. symmetry in H. apply app_eq_nil in H as [-> ->]. by left.
  - split.
    + intros [H|H]; [by inversion H|].
      apply in_map_iff in H as [[a b] [H1 H2]]. cbn in H1. inversion H1; subst.
      apply IH in H2. by subst.
    + destruct s1 as [|c1 s1]; cbn; intros H; [left; by subst|].
      inversion H; subst. right. apply in_map_iff. exists (s1, s2).
      split; [done|]. by apply IH.
Qed.

Lemma existsb_splits (f : list ascii * list ascii -> bool) (s : list ascii) :
  existsb f (splits s) = true <-> exists s1 s2, s = s1 ++ s2 /\ f (s1, s2) = true.
Proof.
  rewrite existsb_exists. split.
  - intros [[s1 s2] [H1 H2]]. apply in_splits in H1. eauto.
  - intros (s1 & s2 & H1 & H2). exists (s1, s2). split; [by apply in_splits|done].
Qed.

Module regexp_facts.
Import regexp.

Lemma matches_concat r1 r2 b e s :
  matches (OpConcat r1 r2) b e s = true <->
  exists s1 s2, s = s1 ++ s2 /\
    matches r1 b (e && is_nil s2) s1 = true /\
    matches r2 (b && is_nil s1) e s2 = true.
Proof.
  cbn [matches]. rewrite existsb_splits. split.
  - intros (s1 & s2 & -> & H). cbn in H. exists s1, s2.
    destruct (matches r1 _ _ s1); [done|discriminate].
  - intros (s1 & s2 & -> & H1 & H2). exists s1, s2. cbn. by rewrite H1.
Qed.

Lemma matches_literal_byte c b e s :
  matches (OpLiteral c) b e s = true <-> s = [c].
Proof.
  cbn. destruct s as [|c' [|]]; try (split; [discriminate|congruence]).
  rewrite byte_eqb_true. split; congruence.
Qed.

Lemma matches_literal p k b e s :
  matches (literal p k) b e s = true <->
  exists t, s = p ++ t /\ matches k (b && is_nil p) e t = true.
Proof.
  revert b s. induction p as [|c p IH]; intros b s.
  - cbn [literal foldr app is_nil]. rewrite andb_true_r. split; [eauto|].
    by intros (t & -> & H).
  - change (literal (c :: p) k) with (OpConcat (OpLiteral c) (literal p k)).
    rewrite matches_concat. split.
    + intros (s1 & s2 & -> & H1 & H2). apply matches_literal_byte in H1 as ->.
      apply IH in H2 as (t & -> & H2). exists t. split; [done|].
      cbn [is_nil] in *. by rewrite andb_false_r in *.
    + intros (t & -> & H). exists [c], (p ++ t). split; [done|].
      split; [by apply matches_literal_byte|].
      apply IH. exists t. split; [done|].
      cbn [is_nil] in *. by rewrite andb_false_r in *.
Qed.

Lemma matches_begin_concat k b e s :
  matches (OpConcat OpBeginText k) b e s = true <->
  b = true /\ matches k b e s = true.
Proof.
  rewrite matches_concat. split.
  - intros (s1 & s2 & -> & H1 & H2). cbn in H1.
    apply andb_true_iff in H1 as [H1 ->]. apply is_nil_true in H1 as ->.
    by cbn in *.
  - intros [-> H]. by exists [], s.
Qed.

Lemma search_iff r s :
  search r s = true <->
  exists pre mid post, s = pre ++ mid ++ post /\
    matches r (is_nil pre) (is_nil post) mid = true.
Proof.
  unfold search. rewrite existsb_splits. split.
  - intros (pre & rest & -> & H). cbn in H.
    apply existsb_splits in H as (mid & post & -> & H). by exists pre, mid, post.
  - intros (pre & mid & post & -> & H). exists pre, (mid ++ post).
    split; [done|]. cbn. apply existsb_splits. by exists mid, post.
Qed.

(** A pattern that starts with [^] and a run of literal bytes only
    matches texts that start with these bytes. *)
Lemma search_anchored_literal p k s :
  search (OpConcat OpBeginText (literal p k)) s = true ->
  exists t, s = p ++ t.
Proof.
  intros H. apply search_iff in H as (pre & mid & post & -> & H).
  apply matches_begin_concat in H as [Hpre H].
  apply is_nil_true in Hpre as ->.
  apply matches_literal in H as (t & -> & _).
  exists (t ++ post). by rewrite <- app_assoc.
Qed.

Lemma star_any fuel b e s :
  length s <= fuel ->
  Forall (fun c => c <> newline) s ->
  star_rounds (matches OpAnyCharNotNL) fuel b e s = true.
Proof.
  revert b s. induction fuel as [|fuel IH]; intros b s Hlen Hs.
  - destruct s; [done|cbn in Hlen; lia].
  - destruct s as [|c s]; [done|].
    cbn [star_rounds is_nil]. apply existsb_splits.
    exists [c], s. split; [done|]. cbn.
    apply Forall_cons in Hs as [Hc Hs].
    destruct (byte_eqb c newline) eqn:E.
    { by apply byte_eqb_true in E. }
    cbn. apply IH; [cbn in Hlen; lia|done].
Qed.

End regexp_facts.


(** ** The log-path resolver *)

(** C7: in legacy mode the resolver succeeds for every pod with the
    pattern [/var/log/containers/<name>_<namespace>_*.log]; it makes no
    call at all, hence no probe of the file system, and its result is
    the same on every host.  For the pod [web-1] in [default] the
    pattern is [/var/log/containers/web-1_default_*.log]. *)
Theorem C7_legacy_pattern (h : Host) (pod : v1.Pod) :
  fst (determineLogPattern h pod true) =
    ("/var/log/containers/" +:+ v1.Name pod +:+ "_" +:+ v1.Namespace pod +:+ "_*.log", None)
  /\ snd (determineLogPattern h pod true) = []
  /\ (forall h', determineLogPattern h' pod true = determineLogPattern h pod true)
  /\ (forall uid annotations,
        fst (determineLogPattern h
               {| v1.Name := "web-1"; v1.Namespace := "default";
                  v1.UID := uid; v1.Annotations := annotations |} true) =
        ("/var/log/containers/web-1_default_*.log", None)).
Proof. repeat split. Qed.

Lemma found_true h p : found h p = true <-> os_Stat h p = None.
Proof. unfold found. by destruct (os_Stat h p). Qed.

Lemma determineLogPattern_new_layout h pod :
  fst (determineLogPattern h pod false) =
  let by_uid :=
    if found h ("/var/log/pods/" +:+ v1.UID pod)
    then ("/var/log/pods/" +:+ v1.UID pod +:+ "/*", None)
    else ("", Some ("Could not find specified log path for pod " +:+ v1.UID pod)) in
  match v1.Annotations pod !! configHash with
  | Some hash =>
      if found h ("/var/log/pods/" +:+ hash)
      then ("/var/log/pods/" +:+ hash +:+ "/*", None)
      else by_uid
  | None => by_uid
  end.
Proof.
  unfold determineLogPattern, found.
  destruct (v1.Annotations pod !! configHash) as [hash|]; unfold_M.
  - destruct (os_Stat h ("/var/log/pods/" +:+ hash)); [|done].
    by destruct (os_Stat h ("/var/log/pods/" +:+ v1.UID pod)).
  - by destruct (os_Stat h ("/var/log/pods/" +:+ v1.UID pod)).
Qed.

(** C4: outside legacy mode the resolver prefers the directory named by
    the [kubernetes.io/config.hash] annotation when [os.Stat] succeeds on
    it (whatever the UID directory is), then the UID directory, and
    fails otherwise; the outcome depends on the probes only through
    whether their error is nil, so any probe error counts as absence. *)
Theorem C4_new_layout_precedence (h : Host) (pod : v1.Pod) :
  let present p := os_Stat h p = None in
  let hashed hash := v1.Annotations pod !! configHash = Some hash
                     /\ present ("/var/log/pods/" +:+ hash) in
  let upath := "/var/log/pods/" +:+ v1.UID pod in
  let out := fst (determineLogPattern h pod false) in
  (forall hash, hashed hash -> out = ("/var/log/pods/" +:+ hash +:+ "/*", None))
  /\ ((forall hash, ~ hashed hash) -> present upath -> out = (upath +:+ "/*", None))
  /\ ((forall hash, ~ hashed hash) -> ~ present upath ->
      out = ("", Some ("Could not find specified log path for pod " +:+ v1.UID pod)))
  /\ (forall h', (forall p, os_Stat h' p = None <-> os_Stat h p = None) ->
      fst (determineLogPattern h' pod false) = out).
Proof.
  cbv zeta. rewrite determineLogPattern_new_layout. cbv zeta. repeat split.
  - intros hash [-> Hh]. apply found_true in Hh. by rewrite Hh.
  - intros Hno Hu. apply found_true in Hu. rewrite Hu.
    destruct (v1.Annotations pod !! configHash) as [hash|] eqn:Ea; [|done].
    destruct (found h ("/var/log/pods/" +:+ hash)) eqn:Eh; [|done].
    apply found_true in Eh. by destruct (Hno hash).
  - intros Hno Hu.
    assert (found h ("/var/log/pods/" +:+ v1.UID pod) = false) as ->.
    { destruct (found h _) eqn:E; [|done]. by apply found_true in E. }
    destruct (v1.Annotations pod !! configHash) as [hash|] eqn:Ea; [|done].
    destruct (found h ("/var/log/pods/" +:+ hash)) eqn:Eh; [|done].
    apply found_true in Eh. by destruct (Hno hash).
  - intros h' Hsame. rewrite determineLogPattern_new_layout. cbv zeta.
    assert (Hf : forall p, found h' p = found h p).
    { intros p. specialize (Hsame p). rewrite <- !found_true in Hsame.
      destruct (found h' p), (found h p); try done.
      - symmetry. by apply Hsame.
      - by apply Hsame. }
    destruct (v1.Annotations pod !! configHash) as [hash|]; by rewrite !Hf.
Qed.

(** The resolver on a pod with the annotation [abc123] whose hash and
    UID directories both exist, on one whose UID directory alone exists,
    and on one with neither. *)
Lemma C4_new_layout_precedence_witness :
  let h := {| os_Stat := fun p => if decide (p = "/var/log/pods/abc123") then None
                                  else if decide (p = "/var/log/pods/u-1") then None
                                  else Some "stat: no such file or directory";
              NewLineHandlerFactoryFromConfig := fun _ u =>
                inr {| handlers.processorUID := u |} |} in
  let pod := {| v1.Name := "etcd"; v1.Namespace := "kube-system"; v1.UID := "u-1";
                v1.Annotations := {[ configHash := "abc123" ]} |} in
  fst (determineLogPattern h pod false) = ("/var/log/pods/abc123/*", None).
Proof.
  intros h pod.
  destruct (C4_new_layout_precedence h pod) as [H _].
  apply (H "abc123"). split; reflexivity.
Defined.

(** ** The handlers of the loop *)

Lemma watcherForPod_failed pt h a pod cn err :
  NewLineHandlerFactoryFromConfig h (config pt) (v1.UID pod) = inl err ->
  watcherForPod pt h a pod cn =
  (inl err,
   resolve_calls pt h pod ++
   [NewLineHandlerFactory (v1.UID pod);
    Log ErrorLevel "Error setting up watcher" [("error", err)]]).
Proof.
  intros Hf. unfold watcherForPod, resolve_calls. rewrite Hf.
  destruct (determineLogPattern h pod (legacyLogPaths pt)) as [[pat [e|]] tr];
    unfold_M; by rewrite <- ?app_assoc.
Qed.

Lemma on_pod_failed pt h st pod err :
  NewLineHandlerFactoryFromConfig h (config pt) (v1.UID pod) = inl err ->
  on_pod pt h st pod =
  (st,
   resolve_calls pt h pod ++
   [NewLineHandlerFactory (v1.UID pod);
    Log ErrorLevel "Error setting up watcher" [("error", err)];
    Log ErrorLevel "Error setting up watcher" [("error", err)]]).
Proof.
  intros Hf. unfold on_pod. rewrite (watcherForPod_failed _ _ _ _ _ _ Hf).
  unfold_M. by rewrite <- app_assoc.
Qed.

Lemma on_pod_started pt h st pod hf :
  NewLineHandlerFactoryFromConfig h (config pt) (v1.UID pod) = inr hf ->
  let w := new_watcher pt h (allocated st) pod hf in
  on_pod pt h st pod =
  ({| watcherMap := <[v1.UID pod := w]> (watcherMap st);
      allocated := S (allocated st) |},
   resolve_calls pt h pod ++
   [NewLineHandlerFactory (v1.UID pod);
    Log InfoLevel "Setting up watcher for pod"
      [("Name", v1.Name pod); ("UID", v1.UID pod); ("Pattern", tailer.pattern w)];
    NewPathWatcher (allocated st) (tailer.pattern w);
    Log InfoLevel "starting watcher for pod"
      [("name", v1.Name pod); ("uid", v1.UID pod); ("namespace", v1.Namespace pod)];
    WatcherStart (allocated st)]).
Proof.
  intros Hf w. unfold on_pod, watcherForPod, resolve_calls. rewrite Hf.
  subst w. unfold new_watcher.
  destruct (determineLogPattern h pod (legacyLogPaths pt)) as [[pat [e|]] tr];
    unfold_M; by rewrite <- ?app_assoc.
Qed.

Lemma determineLogPattern_calls h pod legacy :
  Forall (fun e => match e with Stat _ | Log _ _ _ => True | _ => False end)
         (snd (determineLogPattern h pod legacy)).
Proof.
  unfold determineLogPattern. destruct legacy; [by constructor|].
  destruct (v1.Annotations pod !! configHash) as [hash|]; unfold_M.
  - destruct (os_Stat h ("/var/log/pods/" +:+ hash)); unfold_M.
    + destruct (os_Stat h ("/var/log/pods/" +:+ v1.UID pod)); by repeat constructor.
    + by repeat constructor.
  - destruct (os_Stat h ("/var/log/pods/" +:+ v1.UID pod)); by repeat constructor.
Qed.

Lemma resolve_calls_quiet pt h pod :
  Forall (fun e => match e with Stat _ | Log _ _ _ => True | _ => False end)
         (resolve_calls pt h pod).
Proof.
  unfold resolve_calls. apply Forall_app. split.
  - apply determineLogPattern_calls.
  - destruct (snd (fst _)); by repeat constructor.
Qed.

Lemma quiet_starts tr :
  Forall (fun e => match e with Stat _ | Log _ _ _ => True | _ => False end) tr ->
  starts tr = [] /\ stops tr = [] /\ forallb in_loop_body tr = true
  /\ forall a pat, NewPathWatcher a pat ∉ tr.
Proof.
  induction 1 as [|e tr He _ (IH1 & IH2 & IH3 & IH4)].
  - repeat split; try done. intros a pat H. by apply elem_of_nil in H.
  - destruct e; try done; cbn; repeat split; try done;
      intros a pat H; apply elem_of_cons in H as [H|H]; try done; by apply IH4 in H.
Qed.

Lemma starts_app tr1 tr2 : starts (tr1 ++ tr2) = starts tr1 ++ starts tr2.
Proof. apply omap_app. Qed.

Lemma stops_app tr1 tr2 : stops (tr1 ++ tr2) = stops tr1 ++ stops tr2.
Proof. apply omap_app. Qed.

Lemma on_pod_failed_marks pt h st pod err :
  NewLineHandlerFactoryFromConfig h (config pt) (v1.UID pod) = inl err ->
  starts (snd (on_pod pt h st pod)) = [] /\ stops (snd (on_pod pt h st pod)) = [].
Proof.
  intros Hf. rewrite (on_pod_failed _ _ _ _ _ Hf). cbn [snd].
  destruct (quiet_starts _ (resolve_calls_quiet pt h pod)) as (H1 & H2 & _).
  by rewrite starts_app, stops_app, H1, H2.
Qed.

Lemma on_pod_started_marks pt h st pod hf :
  NewLineHandlerFactoryFromConfig h (config pt) (v1.UID pod) = inr hf ->
  starts (snd (on_pod pt h st pod)) = [allocated st]
  /\ stops (snd (on_pod pt h st pod)) = [].
Proof.
  intros Hf. rewrite (on_pod_started _ _ _ _ _ Hf). cbn [snd].
  destruct (quiet_starts _ (resolve_calls_quiet pt h pod)) as (H1 & H2 & _).
  by rewrite starts_app, stops_app, H1, H2.
Qed.

Lemma on_deleted_present st uid pw :
  watcherMap st !! uid = Some pw ->
  on_deleted st uid =
  ({| watcherMap := delete uid (watcherMap st); allocated := allocated st |},
   [Log InfoLevel "pod deleted, stopping watcher" [("uid", uid)];
    WatcherStop (tailer.addr pw)]).
Proof. intros H. unfold on_deleted. by rewrite H. Qed.

Lemma on_deleted_absent st uid :
  watcherMap st !! uid = None -> on_deleted st uid = (st, []).
Proof. intros H. unfold on_deleted. by rewrite H. Qed.

Lemma on_pod_in_loop_body pt h st pod :
  forallb in_loop_body (snd (on_pod pt h st pod)) = true.
Proof.
  destruct (quiet_starts _ (resolve_calls_quiet pt h pod)) as (_ & _ & Hq & _).
  destruct (NewLineHandlerFactoryFromConfig h (config pt) (v1.UID pod)) as [err|hf] eqn:Hf.
  - rewrite (on_pod_failed _ _ _ _ _ Hf). cbn [snd]. by rewrite forallb_app, Hq.
  - rewrite (on_pod_started _ _ _ _ _ Hf). cbn [snd]. by rewrite forallb_app, Hq.
Qed.

Lemma on_deleted_in_loop_body st uid :
  forallb in_loop_body (snd (on_deleted st uid)) = true.
Proof. unfold on_deleted. by destruct (watcherMap st !! uid). Qed.

Lemma loop_cons_pod pt h pod rest st :
  loop pt ((h, PodAdded pod) :: rest) st =
  (fst (loop pt rest (fst (on_pod pt h st pod))),
   snd (on_pod pt h st pod) ++ snd (loop pt rest (fst (on_pod pt h st pod)))).
Proof. done. Qed.

Lemma loop_cons_deleted pt h uid rest st :
  loop pt ((h, PodDeleted uid) :: rest) st =
  (fst (loop pt rest (fst (on_deleted st uid))),
   snd (on_deleted st uid) ++ snd (loop pt rest (fst (on_deleted st uid)))).
Proof. done. Qed.

Lemma loop_cons_stop pt h rest st :
  loop pt ((h, StopRequested) :: rest) st = ((st, Broke), [RecvStop]).
Proof. done. Qed.

(** ** The loop *)

Lemma loop_calls pt events st e :
  e ∈ snd (loop pt events st) -> in_loop_body e = true \/ e = RecvStop.
Proof.
  revert st. induction events as [|[h ev] rest IH]; intros st He.
  - by apply elem_of_nil in He.
  - destruct ev as [pod|uid|].
    + rewrite loop_cons_pod in He. cbn [snd] in He.
      apply elem_of_app in He as [He|He]; [|by eapply IH].
      left. pose proof (on_pod_in_loop_body pt h st pod) as Hb.
      rewrite forallb_forall in Hb. apply Hb. by apply list_elem_of_In.
    + rewrite loop_cons_deleted in He. cbn [snd] in He.
      apply elem_of_app in He as [He|He]; [|by eapply IH].
      left. pose proof (on_deleted_in_loop_body st uid) as Hb.
      rewrite forallb_forall in Hb. apply Hb. by apply list_elem_of_In.
    + rewrite loop_cons_stop in He. cbn [snd] in He.
      apply list_elem_of_singleton in He. by right.
Qed.

Lemma loop_waiting pt events st :
  Forall not_stop events ->
  snd (fst (loop pt events st)) = Waiting
  /\ forallb in_loop_body (snd (loop pt events st)) = true.
Proof.
  intros Hev. revert st. induction Hev as [|[h ev] rest Hns _ IH]; intros st.
  - done.
  - destruct ev as [pod|uid|]; [| |by destruct Hns].
    + rewrite loop_cons_pod. cbn [fst snd].
      destruct (IH (fst (on_pod pt h st pod))) as [H1 H2]. split; [done|].
      by rewrite forallb_app, on_pod_in_loop_body, H2.
    + rewrite loop_cons_deleted. cbn [fst snd].
      destruct (IH (fst (on_deleted st uid))) as [H1 H2]. split; [done|].
      by rewrite forallb_app, on_deleted_in_loop_body, H2.
Qed.

Lemma loop_until_stop pt events1 h events2 st :
  Forall not_stop events1 ->
  loop pt (events1 ++ (h, StopRequested) :: events2) st =
  ((fst (fst (loop pt events1 st)), Broke), snd (loop pt events1 st) ++ [RecvStop]).
Proof.
  intros Hev. revert st. induction Hev as [|[h1 ev] rest Hns _ IH]; intros st.
  - done.
  - destruct ev as [pod|uid|]; [| |by destruct Hns].
    + rewrite <- app_comm_cons, !loop_cons_pod, IH. cbn [fst snd].
      by rewrite app_assoc.
    + rewrite <- app_comm_cons, !loop_cons_deleted, IH. cbn [fst snd].
      by rewrite app_assoc.
Qed.

(** C6: whatever selector the user supplied, the selector handed to
    the pod event source is that selector followed by the clause
    [k8s-app!=honeycomb-agent], after a comma unless the selector is
    empty; it ends with the clause, and it is the selector of the only
    pod event source that [run] creates. *)
Theorem C6_selector_excludes_agent (pt : PodSetTailer) (order : RangeOrder)
    (events : list (Host * Event)) (user : string) :
  config.LabelSelector (config pt) = Some user ->
  let clause := "k8s-app!=honeycomb-agent" in
  labelSelector user = user +:+ (if decide (user = "") then "" else ",") +:+ clause
  /\ (exists before, labelSelector user = before +:+ clause)
  /\ exists tr,
       snd (run pt order events) =
         NewPodWatcher (config.Namespace (config pt)) (labelSelector user)
           (nodeSelector pt) :: tr
       /\ forall ns sel node, NewPodWatcher ns sel node ∉ tr.
Proof.
  intros Hsel clause. split; [|split].
  - unfold labelSelector. by destruct (decide (user = "")) as [->|].
  - unfold labelSelector. destruct (decide (user = "")) as [->|].
    + by exists "".
    + exists (user +:+ ","). subst clause. clear.
      induction user as [|c s IH]; [done|].
      change (String c s +:+ ",k8s-app!=honeycomb-agent")
        with (String c (s +:+ ",k8s-app!=honeycomb-agent")).
      by rewrite IH.
  - unfold run. rewrite Hsel. unfold_M.
    destruct (loop pt events initial) as [[st ex] tr] eqn:El. cbn [fst snd].
    exists (tr ++ snd (match ex with
                       | Waiting => (Blocked, [])
                       | Broke => (Returned,
                                   snd (stop_all order (watcherMap st)) ++ [WgDone])
                       end)).
    split; [done|]. intros ns sel node Hin.
    apply elem_of_app in Hin as [Hin|Hin].
    + assert (Hl : NewPodWatcher ns sel node ∈ snd (loop pt events initial))
        by (by rewrite El).
      apply loop_calls in Hl as [Hl|Hl]; discriminate.
    + destruct ex; cbn in Hin; [by apply elem_of_nil in Hin|].
      apply elem_of_app in Hin as [Hin|Hin].
      * apply list_elem_of_fmap in Hin as (kw & Hkw & _). discriminate.
      * apply list_elem_of_singleton in Hin. discriminate.
Qed.

(** The selector of an agent configured with [app=web]. *)
Lemma C6_selector_excludes_agent_witness :
  labelSelector "app=web" = "app=web,k8s-app!=honeycomb-agent"
  /\ exists tr,
       snd (run (sample.agent "app=web" "" false) sample.in_map_order []) =
         NewPodWatcher "default" "app=web,k8s-app!=honeycomb-agent"
           "spec.nodeName=node-1" :: tr.
Proof.
  destruct (C6_selector_excludes_agent (sample.agent "app=web" "" false)
              sample.in_map_order [] "app=web" eq_refl) as (H1 & _ & tr & H3 & _).
  split; [exact H1|]. exists tr. exact H3.
Defined.

(** C8: a pod-deleted event for a registered UID stops that watcher,
    and only that one, and removes its entry, leaving the other entries
    as they are; for a UID that is not registered it makes no call and
    leaves the state of the loop unchanged; in both cases the loop goes
    on with the next event. *)
Theorem C8_pod_deleted (pt : PodSetTailer) (h : Host) (uid : string)
    (rest : list (Host * Event)) (st : LoopState) :
  let after := on_deleted st uid in
  (forall pw, watcherMap st !! uid = Some pw ->
     stops (snd after) = [tailer.addr pw]
     /\ starts (snd after) = []
     /\ watcherMap (fst after) !! uid = None
     /\ (forall uid', uid' <> uid ->
           watcherMap (fst after) !! uid' = watcherMap st !! uid')
     /\ allocated (fst after) = allocated st)
  /\ (watcherMap st !! uid = None -> after = (st, []))
  /\ loop pt ((h, PodDeleted uid) :: rest) st =
       (fst (loop pt rest (fst after)), snd after ++ snd (loop pt rest (fst after))).
Proof.
  cbv zeta. split; [|split].
  - intros pw Hpw. rewrite (on_deleted_present _ _ _ Hpw). cbn.
    repeat split.
    + apply lookup_delete_eq.
    + intros uid' Hne. by apply lookup_delete_ne.
  - apply on_deleted_absent.
  - apply loop_cons_deleted.
Qed.

(** A deleted event for a UID nobody registered, on the empty registry. *)
Lemma C8_pod_deleted_witness :
  on_deleted initial "u-9" = (initial, [])
  /\ loop (sample.agent "" "" false) [(sample.bare, PodDeleted "u-9")] initial =
       ((initial, Waiting), []).
Proof.
  destruct (C8_pod_deleted (sample.agent "" "" false) sample.bare "u-9" [] initial)
    as (_ & H2 & H3).
  specialize (H2 eq_refl). split; [exact H2|].
  rewrite H3, H2. reflexivity.
Defined.

(** C9: when the line-handler factory fails for a pod, the error is
    logged, no watcher is constructed, started or registered, the state
    of the loop is unchanged, and the loop goes on with the next
    event. *)
Theorem C9_factory_failure_skips_pod (pt : PodSetTailer) (h : Host) (pod : v1.Pod)
    (err : error) (rest : list (Host * Event)) (st : LoopState) :
  NewLineHandlerFactoryFromConfig h (config pt) (v1.UID pod) = inl err ->
  let after := on_pod pt h st pod in
  fst after = st
  /\ Log ErrorLevel "Error setting up watcher" [("error", err)] ∈ snd after
  /\ (forall a pat, NewPathWatcher a pat ∉ snd after)
  /\ starts (snd after) = []
  /\ stops (snd after) = []
  /\ loop pt ((h, PodAdded pod) :: rest) st =
       (fst (loop pt rest st), snd after ++ snd (loop pt rest st)).
Proof.
  intros Hf after.
  destruct (on_pod_failed_marks pt h st pod err Hf) as [Hs1 Hs2].
  assert (Hst : fst after = st) by (subst after; by rewrite (on_pod_failed _ _ _ _ _ Hf)).
  repeat split; try done.
  - subst after. rewrite (on_pod_failed _ _ _ _ _ Hf). cbn [snd].
    apply elem_of_app. right. apply elem_of_cons. right. apply elem_of_cons. by left.
  - intros a pat. subst after. rewrite (on_pod_failed _ _ _ _ _ Hf). cbn [snd].
    intros Hin. apply elem_of_app in Hin as [Hin|Hin].
    + destruct (quiet_starts _ (resolve_calls_quiet pt h pod)) as (_ & _ & _ & Hq).
      by apply Hq in Hin.
    + repeat (apply elem_of_cons in Hin as [Hin|Hin]; [discriminate|]).
      by apply elem_of_nil in Hin.
  - rewrite loop_cons_pod. fold after. by rewrite Hst.
Qed.

(** A pod added on a host whose factory rejects the configuration,
    followed by the deletion of another pod. *)
Lemma C9_factory_failure_skips_pod_witness :
  fst (on_pod (sample.agent "" "" true) sample.misconfigured initial sample.web1) = initial
  /\ fst (loop (sample.agent "" "" true)
            [(sample.misconfigured, PodAdded sample.web1);
             (sample.bare, PodDeleted "u-9")] initial) = (initial, Waiting).
Proof.
  destruct (C9_factory_failure_skips_pod (sample.agent "" "" true) sample.misconfigured
              sample.web1 "unknown parser" [(sample.bare, PodDeleted "u-9")] initial
              eq_refl) as (H1 & _ & _ & _ & _ & H6).
  split; [exact H1|]. rewrite H6. reflexivity.
Defined.

(** C1 (what the code does): on a host where no log directory exists the
    resolver fails for the pod [web-1], the failure is logged as a
    warning, and [watcherForPod] carries on: a watcher with the empty
    pattern is constructed, started and registered under the pod's UID. *)
Theorem C1_unresolved_pod_is_still_registered :
  let pt := sample.agent "" "" false in
  let r := loop pt [(sample.bare, PodAdded sample.web1)] initial in
  snd (fst (determineLogPattern sample.bare sample.web1 false)) =
    Some "Could not find specified log path for pod u-1"
  /\ snd r =
     [Stat "/var/log/pods/u-1";
      Log WarnLevel "Error finding log path" [("Pod", "u-1")];
      NewLineHandlerFactory "u-1";
      Log InfoLevel "Setting up watcher for pod"
        [("Name", "web-1"); ("UID", "u-1"); ("Pattern", "")];
      NewPathWatcher 0 "";
      Log InfoLevel "starting watcher for pod"
        [("name", "web-1"); ("uid", "u-1"); ("namespace", "default")];
      WatcherStart 0]
  /\ tailer.pattern <$> watcherMap (fst (fst r)) !! "u-1" = Some ""
  /\ tailer.addr <$> watcherMap (fst (fst r)) !! "u-1" = Some 0
  /\ snd (fst r) = Waiting.
Proof. vm_compute. repeat split. Qed.

(** ** The registry invariant *)

Lemma live_app_quiet tr step w :
  starts step = [] -> stops step = [] -> live (tr ++ step) w <-> live tr w.
Proof.
  intros H1 H2. unfold live. by rewrite starts_app, stops_app, H1, H2, !app_nil_r.
Qed.

Lemma registry_sound_initial : registry_sound initial [].
Proof.
  split; [|split; [|split]].
  - intros uid pw H. cbn in H. by rewrite lookup_empty in H.
  - intros w H. by apply elem_of_nil in H.
  - intros w H. by apply elem_of_nil in H.
  - intros uid1 uid2 pw1 pw2 H. cbn in H. by rewrite lookup_empty in H.
Qed.

Lemma registry_complete_initial : registry_complete initial [].
Proof. intros w [H _]. by apply elem_of_nil in H. Qed.

Lemma on_pod_sound pt h st pod tr :
  registry_sound st tr ->
  registry_sound (fst (on_pod pt h st pod)) (tr ++ snd (on_pod pt h st pod)).
Proof.
  intros (S1 & S2 & S3 & S4).
  destruct (NewLineHandlerFactoryFromConfig h (config pt) (v1.UID pod)) as [err|hf] eqn:Hf.
  - destruct (on_pod_failed_marks pt h st pod err Hf) as [M1 M2].
    rewrite (on_pod_failed _ _ _ _ _ Hf) in *. cbn [fst snd] in *.
    unfold registry_sound, live.
    rewrite starts_app, stops_app, M1, M2, !app_nil_r.
    split; [|split; [|split]]; done.
  - destruct (on_pod_started_marks pt h st pod hf Hf) as [M1 M2].
    rewrite (on_pod_started _ _ _ _ _ Hf) in *. cbn [fst snd watcherMap allocated] in *.
    unfold registry_sound, live.
    rewrite starts_app, stops_app, M1, M2, !app_nil_r. cbn [watcherMap allocated].
    assert (Hfresh : allocated st ∉ stops tr).
    { intros Hin. apply S3, S2 in Hin. lia. }
    assert (Hold : forall uid pw, watcherMap st !! uid = Some pw ->
                                  tailer.addr pw < allocated st).
    { intros uid pw Hpw. apply S2. by apply (S1 uid pw). }
    split; [|split; [|split]].
    + intros uid pw H. destruct (decide (uid = v1.UID pod)) as [->|Hne].
      * rewrite lookup_insert_eq in H. inversion H; subst. cbn. split; [|done].
        apply elem_of_app. right. by apply list_elem_of_singleton.
      * rewrite lookup_insert_ne in H by done. split; [|by apply (S1 uid pw)].
        apply elem_of_app. left. by apply (S1 uid pw).
    + intros w Hw. apply elem_of_app in Hw as [Hw|Hw].
      * apply S2 in Hw. lia.
      * apply list_elem_of_singleton in Hw. lia.
    + intros w Hw. apply elem_of_app. left. by apply S3.
    + intros uid1 uid2 pw1 pw2 H1 H2 Ha.
      destruct (decide (uid1 = v1.UID pod)) as [->|Hne1];
        destruct (decide (uid2 = v1.UID pod)) as [->|Hne2]; try done.
      * rewrite lookup_insert_eq in H1. rewrite lookup_insert_ne in H2 by done.
        inversion H1; subst. cbn in Ha. apply Hold in H2. lia.
      * rewrite lookup_insert_eq in H2. rewrite lookup_insert_ne in H1 by done.
        inversion H2; subst. cbn in Ha. apply Hold in H1. lia.
      * rewrite lookup_insert_ne in H1 by done. rewrite lookup_insert_ne in H2 by done.
        by apply (S4 uid1 uid2 pw1 pw2).
Qed.

Lemma on_deleted_sound st uid tr :
  registry_sound st tr ->
  registry_sound (fst (on_deleted st uid)) (tr ++ snd (on_deleted st uid)).
Proof.
  intros (S1 & S2 & S3 & S4).
  destruct (watcherMap st !! uid) as [pw|] eqn:Hpw.
  - rewrite (on_deleted_present _ _ _ Hpw). cbn [fst snd].
    unfold registry_sound, live. rewrite starts_app, stops_app.
    cbn [starts stops omap watcherMap allocated]. rewrite app_nil_r.
    split; [|split; [|split]].
    + intros uid0 pw0 H. apply lookup_delete_Some in H as [Hne H].
      split; [by apply (S1 uid0 pw0)|]. intros Hin.
      apply elem_of_app in Hin as [Hin|Hin].
      * by apply (S1 uid0 pw0).
      * apply list_elem_of_singleton in Hin. apply Hne.
        by apply (S4 uid uid0 pw pw0).
    + done.
    + intros w Hw. apply elem_of_app in Hw as [Hw|Hw]; [by apply S3|].
      apply list_elem_of_singleton in Hw as ->. by apply (S1 uid pw).
    + intros uid1 uid2 pw1 pw2 H1 H2.
      apply lookup_delete_Some in H1 as [_ H1]. apply lookup_delete_Some in H2 as [_ H2].
      by apply S4.
  - rewrite (on_deleted_absent _ _ Hpw). cbn [fst snd]. by rewrite app_nil_r.
Qed.

Lemma loop_sound pt events st tr :
  registry_sound st tr ->
  registry_sound (fst (fst (loop pt events st))) (tr ++ snd (loop pt events st)).
Proof.
  revert st tr. induction events as [|[h ev] rest IH]; intros st tr Hs.
  - cbn. by rewrite app_nil_r.
  - destruct ev as [pod|uid|].
    + rewrite loop_cons_pod. cbn [fst snd]. rewrite app_assoc.
      apply IH. by apply on_pod_sound.
    + rewrite loop_cons_deleted. cbn [fst snd]. rewrite app_assoc.
      apply IH. by apply on_deleted_sound.
    + rewrite loop_cons_stop. cbn [fst snd].
      destruct Hs as (S1 & S2 & S3 & S4). unfold registry_sound, live.
      rewrite starts_app, stops_app. cbn [starts stops omap]. rewrite !app_nil_r.
      split; [|split; [|split]]; done.
Qed.

Lemma on_pod_complete pt h st pod tr :
  registry_sound st tr -> registry_complete st tr ->
  watcherMap st !! v1.UID pod = None ->
  registry_complete (fst (on_pod pt h st pod)) (tr ++ snd (on_pod pt h st pod)).
Proof.
  intros (S1 & S2 & S3 & S4) Hc Hfree w.
  destruct (NewLineHandlerFactoryFromConfig h (config pt) (v1.UID pod)) as [err|hf] eqn:Hf.
  - destruct (on_pod_failed_marks pt h st pod err Hf) as [M1 M2].
    rewrite (live_app_quiet _ _ _ M1 M2).
    rewrite (on_pod_failed _ _ _ _ _ Hf). apply Hc.
  - destruct (on_pod_started_marks pt h st pod hf Hf) as [M1 M2].
    unfold live. rewrite starts_app, stops_app, M1, M2, app_nil_r.
    rewrite (on_pod_started _ _ _ _ _ Hf). cbn [fst].
    intros [Hs Hn]. apply elem_of_app in Hs as [Hs|Hs].
    + destruct (Hc w (conj Hs Hn)) as (uid & pw & Hpw & Ha).
      exists uid, pw. split; [|done]. cbn.
      rewrite lookup_insert_ne; [done|]. intros <-. congruence.
    + apply list_elem_of_singleton in Hs as ->.
      eexists (v1.UID pod), _. cbn. split; [apply lookup_insert_eq|done].
Qed.

Lemma on_deleted_complete st uid tr :
  registry_sound st tr -> registry_complete st tr ->
  registry_complete (fst (on_deleted st uid)) (tr ++ snd (on_deleted st uid)).
Proof.
  intros (S1 & S2 & S3 & S4) Hc w.
  destruct (watcherMap st !! uid) as [pw|] eqn:Hpw.
  - rewrite (on_deleted_present _ _ _ Hpw). cbn [fst snd].
    unfold live. rewrite starts_app, stops_app.
    cbn [starts stops omap]. rewrite app_nil_r.
    intros [Hs Hn].
    assert (Hw : (w ∉ stops tr) /\ w <> tailer.addr pw).
    { split; intros H; apply Hn, elem_of_app; [by left|right].
      by apply list_elem_of_singleton. }
    destruct Hw as [Hn1 Hn2].
    destruct (Hc w (conj Hs Hn1)) as (uid' & pw' & Hpw' & Ha).
    exists uid', pw'. split; [|done]. cbn.
    apply lookup_delete_Some. split; [|done]. intros <-. congruence.
  - rewrite (on_deleted_absent _ _ Hpw). cbn [fst snd]. rewrite app_nil_r. apply Hc.
Qed.

Lemma loop_complete pt events st tr :
  registry_sound st tr -> registry_complete st tr ->
  adds_are_fresh pt events st ->
  registry_complete (fst (fst (loop pt events st))) (tr ++ snd (loop pt events st)).
Proof.
  revert st tr. induction events as [|[h ev] rest IH]; intros st tr Hs Hc Hfresh.
  - cbn. by rewrite app_nil_r.
  - destruct ev as [pod|uid|].
    + destruct Hfresh as [Hfree Hfresh].
      rewrite loop_cons_pod. cbn [fst snd]. rewrite app_assoc.
      apply IH; [by apply on_pod_sound|by apply on_pod_complete|done].
    + rewrite loop_cons_deleted. cbn [fst snd]. rewrite app_assoc.
      apply IH; [by apply on_deleted_sound|by apply on_deleted_complete|done].
    + rewrite loop_cons_stop. cbn [fst snd]. intros w Hw. apply Hc.
      by apply (live_app_quiet tr [RecvStop] w).
Qed.

(** A second added event for a registered UID puts a new watcher in
    the place of the old one, which is not stopped. *)
Lemma readd_replaces_without_stop pt h st pod tr old hf :
  registry_sound st tr ->
  watcherMap st !! v1.UID pod = Some old ->
  NewLineHandlerFactoryFromConfig h (config pt) (v1.UID pod) = inr hf ->
  let after := on_pod pt h st pod in
  watcherMap (fst after) =
    <[v1.UID pod := new_watcher pt h (allocated st) pod hf]> (watcherMap st)
  /\ tailer.addr old <> allocated st
  /\ stops (snd after) = []
  /\ live (tr ++ snd after) (tailer.addr old)
  /\ ~ registered (fst after) (tailer.addr old).
Proof.
  intros (S1 & S2 & S3 & S4) Hold Hf after.
  destruct (on_pod_started_marks pt h st pod hf Hf) as [M1 M2].
  assert (Hlt : tailer.addr old < allocated st).
  { apply S2. by apply (S1 _ _ Hold). }
  subst after. split; [by rewrite (on_pod_started _ _ _ _ _ Hf)|].
  split; [lia|]. split; [done|]. split.
  - unfold live. rewrite starts_app, stops_app, M1, M2, app_nil_r.
    destruct (S1 _ _ Hold) as [Hs Hn]. split; [|done]. apply elem_of_app. by left.
  - rewrite (on_pod_started _ _ _ _ _ Hf). cbn [fst].
    intros (uid & pw & Hpw & Ha). cbn in Hpw.
    destruct (decide (uid = v1.UID pod)) as [->|Hne].
    + rewrite lookup_insert_eq in Hpw. inversion Hpw; subst. cbn in Ha. lia.
    + rewrite lookup_insert_ne in Hpw by done.
      apply Hne. by apply (S4 uid (v1.UID pod) pw old).
Qed.

(** C2 (as amended): after any sequence of events the registry has at
    most one entry per UID and every entry is a watcher that has been
    told to start and not told to stop; every such watcher is an entry
    provided no added event arrived while its UID was registered; and
    an added event for a registered UID puts the new watcher in the
    place of the old one, which is left started, not stopped and out of
    the registry. *)
Theorem C2_registry_invariant (pt : PodSetTailer) (events : list (Host * Event)) :
  let st := fst (fst (loop pt events initial)) in
  let tr := snd (loop pt events initial) in
  NoDup (fst <$> map_to_list (watcherMap st))
  /\ (forall w, registered st w -> live tr w)
  /\ (adds_are_fresh pt events initial -> registry_tracks_live st tr)
  /\ (forall h pod old hf,
        watcherMap st !! v1.UID pod = Some old ->
        NewLineHandlerFactoryFromConfig h (config pt) (v1.UID pod) = inr hf ->
        let after := on_pod pt h st pod in
        watcherMap (fst after) =
          <[v1.UID pod := new_watcher pt h (allocated st) pod hf]> (watcherMap st)
        /\ tailer.addr old <> allocated st
        /\ stops (snd after) = []
        /\ live (tr ++ snd after) (tailer.addr old)
        /\ ~ registered (fst after) (tailer.addr old)).
Proof.
  intros st tr.
  pose proof (loop_sound pt events initial [] registry_sound_initial) as Hs.
  rewrite app_nil_l in Hs. fold st tr in Hs.
  assert (Hlive : forall w, registered st w -> live tr w).
  { intros w (uid & pw & Hpw & <-). destruct Hs as (S1 & _). by apply (S1 uid). }
  split; [apply NoDup_fst_map_to_list|]. split; [done|]. split.
  - intros Hfresh w. split; [apply Hlive|].
    pose proof (loop_complete pt events initial [] registry_sound_initial
                  registry_complete_initial Hfresh) as Hc.
    rewrite app_nil_l in Hc. apply Hc.
  - intros h pod old hf Hold Hf. by apply readd_replaces_without_stop.
Qed.

(** Two pods added and one of them deleted: the registry holds exactly
    the live watchers. *)
Lemma C2_registry_invariant_witness :
  let pt := sample.agent "" "" true in
  let other := {| v1.Name := "db-0"; v1.Namespace := "default"; v1.UID := "u-2";
                  v1.Annotations := ∅ |} in
  let events := [(sample.bare, PodAdded sample.web1); (sample.bare, PodAdded other);
                 (sample.bare, PodDeleted "u-1")] in
  registry_tracks_live (fst (fst (loop pt events initial))) (snd (loop pt events initial)).
Proof.
  intros pt other events.
  destruct (C2_registry_invariant pt events) as (_ & _ & H & _).
  apply H. cbn. split; [reflexivity|]. split; [|exact I].
  vm_compute. reflexivity.
Defined.

(** C2 (as stated) fails: after two added events for the same UID the
    first watcher has been told to start, has not been told to stop,
    and is not in the registry. *)
Lemma C2_replaced_watcher_is_live_unregistered :
  let pt := sample.agent "" "" true in
  let events := [(sample.bare, PodAdded sample.web1); (sample.bare, PodAdded sample.web1)] in
  ~ registry_tracks_live (fst (fst (loop pt events initial)))
                         (snd (loop pt events initial)).
Proof.
  intros pt events Hiff.
  destruct (Hiff 0) as [_ Hreg].
  assert (Hl : live (snd (loop pt events initial)) 0).
  { split.
    - apply list_elem_of_In. vm_compute. by left.
    - intros Hin. apply list_elem_of_In in Hin. vm_compute in Hin. done. }
  destruct (Hreg Hl) as (uid & pw & Hpw & Ha).
  assert (Hm : watcherMap (fst (fst (loop pt events initial))) =
               <[ "u-1" := new_watcher pt sample.bare 1 sample.web1
                             {| handlers.processorUID := "u-1" |} ]>
                 (<[ "u-1" := new_watcher pt sample.bare 0 sample.web1
                                 {| handlers.processorUID := "u-1" |} ]> ∅)).
  { reflexivity. }
  rewrite Hm in Hpw.
  destruct (decide (uid = "u-1")) as [->|Hne].
  - rewrite lookup_insert_eq in Hpw. inversion Hpw; subst. discriminate.
  - rewrite !lookup_insert_ne in Hpw by done. by rewrite lookup_empty in Hpw.
Qed.

(** ** Shutdown *)

Lemma wg_counter_quiet tr : Forall no_wg tr -> wg_counter tr = 0%Z.
Proof. induction 1 as [|e tr He _ IH]; [done|]. by destruct e. Qed.

Lemma in_loop_body_no_wg tr : forallb in_loop_body tr = true -> Forall no_wg tr.
Proof.
  intros H. apply Forall_forall. intros e He.
  rewrite forallb_forall in H. specialize (H e).
  rewrite <- list_elem_of_In in H. specialize (H He). by destruct e.
Qed.

Lemma drain_no_wg order m : Forall no_wg (drain order m).
Proof. unfold drain. apply Forall_fmap, Forall_forall. by intros. Qed.

(** In a trace that starts with [wg.Add(1)] and whose only other call on
    the wait group is a final [wg.Done()], a prefix that contains the
    receive from [pt.stop] and leaves the counter at zero is the whole
    trace. *)
Lemma stop_returns_at_end body tr rest :
  Forall no_wg body ->
  WgAdd 1 :: body ++ [WgDone] = tr ++ rest ->
  Stop_returns tr -> rest = [].
Proof.
  intros Hbody Heq [Hrecv Hzero].
  destruct tr as [|e tr]; [done|].
  cbn in Heq. inversion Heq as [[He Htl]]. subst e.
  destruct rest as [|x rest _] using rev_ind; [done|]. exfalso.
  rewrite app_assoc in Htl. apply app_inj_tail in Htl as [Hb _].
  assert (Htr : Forall no_wg tr).
  { rewrite Hb in Hbody. by apply Forall_app in Hbody as [? _]. }
  cbn in Hzero. rewrite (wg_counter_quiet _ Htr) in Hzero. lia.
Qed.

Lemma run_until_stop pt order user events1 h events2 :
  config.LabelSelector (config pt) = Some user ->
  Forall not_stop events1 ->
  run pt order (events1 ++ (h, StopRequested) :: events2) =
  (Returned,
   NewPodWatcher (config.Namespace (config pt)) (labelSelector user) (nodeSelector pt)
   :: snd (loop pt events1 initial) ++ RecvStop
   :: drain order (watcherMap (fst (fst (loop pt events1 initial)))) ++ [WgDone]).
Proof.
  intros Hsel Hev. unfold run. rewrite Hsel, (loop_until_stop _ _ _ _ _ Hev).
  unfold_M. unfold stop_all, drain. cbn [fst snd].
  by rewrite <- !app_assoc.
Qed.

Lemma drain_addresses_distinct order st tr :
  registry_sound st tr -> NoDup (stops (drain order (watcherMap st))).
Proof.
  intros (_ & _ & _ & S4).
  assert (Hd : stops (drain order (watcherMap st)) =
               (fun kw => tailer.addr (snd kw)) <$> range order (watcherMap st)).
  { unfold drain. induction (range order (watcherMap st)) as [|kw l IH]; [done|].
    cbn. by rewrite <- IH. }
  rewrite Hd, (range_perm order).
  apply NoDup_fmap_2_strong; [|apply NoDup_map_to_list].
  intros [uid1 pw1] [uid2 pw2] H1 H2 Ha. cbn in Ha.
  apply elem_of_map_to_list in H1, H2.
  assert (uid1 = uid2) as -> by by apply (S4 uid1 uid2 pw1 pw2).
  congruence.
Qed.

(** C3: once the loop receives the shutdown request it handles no
    further event; it then tells every watcher of the registry to stop,
    each one once and one after the other, and only then signals the
    wait group; [Stop], which waits for that signal, cannot have
    returned before all of these calls are made. *)
Theorem C3_stop_drains_registry (pt : PodSetTailer) (order : RangeOrder) (user : string)
    (events1 : list (Host * Event)) (h : Host) (events2 : list (Host * Event)) :
  config.LabelSelector (config pt) = Some user ->
  Forall not_stop events1 ->
  let before := loop pt events1 initial in
  let reg := watcherMap (fst (fst before)) in
  let all := Start pt order (events1 ++ (h, StopRequested) :: events2) in
  fst all = Returned
  /\ snd all =
       WgAdd 1
       :: NewPodWatcher (config.Namespace (config pt)) (labelSelector user)
            (nodeSelector pt)
       :: snd before ++ RecvStop :: drain order reg ++ [WgDone]
  /\ (forall uid pw, reg !! uid = Some pw -> WatcherStop (tailer.addr pw) ∈ drain order reg)
  /\ (forall w, w ∈ stops (drain order reg) -> registered (fst (fst before)) w)
  /\ NoDup (stops (drain order reg))
  /\ (forall tr rest, snd all = tr ++ rest -> Stop_returns tr -> rest = []).
Proof.
  intros Hsel Hev before reg all.
  assert (Hall : all =
    (Returned,
     WgAdd 1
     :: NewPodWatcher (config.Namespace (config pt)) (labelSelector user)
          (nodeSelector pt)
     :: snd before ++ RecvStop :: drain order reg ++ [WgDone])).
  { subst all. unfold Start. by rewrite (run_until_stop _ _ _ _ _ _ Hsel Hev). }
  rewrite Hall. cbn [fst snd]. split; [done|]. split; [done|]. split; [|split; [|split]].
  - intros uid pw Hpw. unfold drain.
    apply list_elem_of_fmap. exists (uid, pw). split; [done|].
    rewrite (range_perm order). by apply elem_of_map_to_list.
  - intros w Hw. unfold stops, drain in Hw.
    apply list_elem_of_omap in Hw as (e & He & Hw).
    apply list_elem_of_fmap in He as ([uid pw] & -> & Hkw).
    rewrite (range_perm order) in Hkw. apply elem_of_map_to_list in Hkw.
    cbn in Hw. inversion Hw; subst. by exists uid, pw.
  - apply (drain_addresses_distinct order _ (snd before)).
    pose proof (loop_sound pt events1 initial [] registry_sound_initial) as Hs.
    by rewrite app_nil_l in Hs.
  - intros tr rest Heq. revert Heq.
    change (WgAdd 1 :: NewPodWatcher (config.Namespace (config pt)) (labelSelector user)
              (nodeSelector pt) :: snd before ++ RecvStop :: drain order reg ++ [WgDone])
      with (WgAdd 1 :: (NewPodWatcher (config.Namespace (config pt)) (labelSelector user)
              (nodeSelector pt) :: snd before ++ RecvStop :: drain order reg ++ [WgDone])).
    replace (NewPodWatcher (config.Namespace (config pt)) (labelSelector user)
               (nodeSelector pt) :: snd before ++ RecvStop :: drain order reg ++ [WgDone])
      with ((NewPodWatcher (config.Namespace (config pt)) (labelSelector user)
               (nodeSelector pt) :: snd before ++ RecvStop :: drain order reg) ++ [WgDone]).
    2:{ cbn. f_equal. by rewrite <- app_assoc. }
    apply stop_returns_at_end.
    constructor; [done|]. apply Forall_app. split.
    + apply in_loop_body_no_wg. by apply loop_waiting.
    + constructor; [done|]. apply drain_no_wg.
Qed.

(** A shutdown request after one pod was added: its watcher is told to
    stop before the wait group is signalled, and the event that follows
    the request is never handled. *)
Lemma C3_stop_drains_registry_witness :
  let pt := sample.agent "" "" true in
  snd (Start pt sample.in_map_order
         [(sample.bare, PodAdded sample.web1); (sample.bare, StopRequested);
          (sample.bare, PodDeleted "u-1")]) =
  [WgAdd 1; NewPodWatcher "default" "k8s-app!=honeycomb-agent" "spec.nodeName=node-1";
   NewLineHandlerFactory "u-1";
   Log InfoLevel "Setting up watcher for pod"
     [("Name", "web-1"); ("UID", "u-1");
      ("Pattern", "/var/log/containers/web-1_default_*.log")];
   NewPathWatcher 0 "/var/log/containers/web-1_default_*.log";
   Log InfoLevel "starting watcher for pod"
     [("name", "web-1"); ("uid", "u-1"); ("namespace", "default")];
   WatcherStart 0; RecvStop; WatcherStop 0; WgDone].
Proof.
  intros pt.
  destruct (C3_stop_drains_registry pt sample.in_map_order ""
              [(sample.bare, PodAdded sample.web1)] sample.bare
              [(sample.bare, PodDeleted "u-1")] eq_refl) as (_ & H & _).
  - repeat constructor; discriminate.
  - etrans; [exact H|]. vm_compute. reflexivity.
Defined.

(** ** Patterns built from literal bytes *)

Lemma top_byte_literal c :
  literal_byte c = true -> regexp.top_byte c = regexp.BToken (regexp.TLit c).
Proof. intros H. by_byte c H. Qed.

Lemma top_byte_not_special c :
  regexp.special c = false ->
  regexp.top_byte c =
    if is_ascii c then regexp.BToken (regexp.TLit c) else regexp.BOutside.
Proof. intros H. by_byte c H. Qed.

Lemma escape_special c :
  regexp.special c = true -> is_ascii c && negb (is_alnum c) = true.
Proof. intros H. by_byte c H. Qed.

Lemma lex_literal p rest ts :
  forallb literal_byte p = true ->
  regexp.lex regexp.Top rest = inr ts ->
  regexp.lex regexp.Top (p ++ rest) = inr (map regexp.TLit p ++ ts).
Proof.
  intros Hp Hrest. induction p as [|c p IH]; [done|].
  cbn in Hp. apply andb_true_iff in Hp as [Hc Hp].
  cbn [app regexp.lex]. rewrite (top_byte_literal c Hc), (IH Hp). done.
Qed.

Lemma lex_literal_error p rest e :
  forallb literal_byte p = true ->
  regexp.lex regexp.Top rest = inl e ->
  regexp.lex regexp.Top (p ++ rest) = inl e.
Proof.
  intros Hp Hrest. induction p as [|c p IH]; [done|].
  cbn in Hp. apply andb_true_iff in Hp as [Hc Hp].
  cbn [app regexp.lex]. rewrite (top_byte_literal c Hc), (IH Hp). done.
Qed.

Lemma lex_quoted p rest ts :
  regexp.lex regexp.Top rest = inr ts ->
  regexp.lex regexp.Top (regexp.quote_bytes p ++ rest) = inr (map regexp.TLit p ++ ts)
  \/ exists e, regexp.lex regexp.Top (regexp.quote_bytes p ++ rest) = inl e.
Proof.
  intros Hrest. induction p as [|c p IH]; [by left|].
  cbn [regexp.quote_bytes]. destruct (regexp.special c) eqn:Hs.
  - cbn [app regexp.lex].
    change (regexp.top_byte "\"%char) with regexp.BBackslash. cbn iota.
    rewrite (escape_special c Hs).
    destruct IH as [IH|[e IH]]; rewrite IH; [by left|right; by exists e].
  - cbn [app regexp.lex]. rewrite (top_byte_not_special c Hs).
    destruct (is_ascii c); [|right; by eexists].
    destruct IH as [IH|[e IH]]; rewrite IH; [by left|right; by exists e].
Qed.

Lemma branches_literals p ts :
  regexp.branches (map regexp.TLit p ++ ts) =
  match regexp.branches ts with
  | b :: bs => (map regexp.TLit p ++ b) :: bs
  | [] => [map regexp.TLit p]
  end.
Proof.
  induction p as [|c p IH].
  - cbn. destruct (regexp.branches ts) eqn:E; [|done].
    destruct ts as [|[] ts]; cbn in E; try done; by destruct (regexp.branches ts).
  - cbn [map app regexp.branches]. rewrite IH.
    by destruct (regexp.branches ts).
Qed.

Lemma parse_seq_literals p c ts :
  regexp.parse_seq (map regexp.TLit p ++ regexp.TLit c :: ts) =
  match regexp.parse_seq (regexp.TLit c :: ts) with
  | inl e => inl e
  | inr r => inr (regexp.literal p r)
  end.
Proof.
  induction p as [|c0 p IH].
  - cbn [map app regexp.literal foldr]. by destruct (regexp.parse_seq _).
  - cbn [map app].
    assert (Hstep : forall t ts',
      regexp.parse_seq (regexp.TLit c0 :: regexp.TLit t :: ts') =
      regexp.cons_piece (regexp.OpLiteral c0) (regexp.parse_seq (regexp.TLit t :: ts')))
      by done.
    destruct p as [|c1 p].
    + cbn [map app] in *. rewrite Hstep.
      by destruct (regexp.parse_seq (regexp.TLit c :: ts)).
    + cbn [map app] in *. rewrite Hstep, IH.
      by destruct (regexp.parse_seq (regexp.TLit c :: ts)).
Qed.

(** What [regexp.Compile] makes of the filter pattern of the new layout
    when the directory name is made of literal bytes. *)
Lemma compile_pods_filter dir cn :
  forallb literal_byte (bytes dir) = true ->
  regexp.Compile (pods_filter_pattern dir cn) =
    inr (regexp.OpConcat regexp.OpBeginText
           (regexp.literal (bytes "/var/log/pods/" ++ bytes dir ++ bytes "/" ++ bytes cn)
              pods_filter_tail))
  \/ exists e, regexp.Compile (pods_filter_pattern dir cn) = inl e.
Proof.
  intros Hdir. unfold regexp.Compile, pods_filter_pattern, regexp.QuoteMeta.
  rewrite !bytes_app, bytes_of_bytes.
  change (bytes "^/var/log/pods/") with ("^"%char :: bytes "/var/log/pods/").
  cbn [app regexp.lex]. change (regexp.top_byte "^"%char) with (regexp.BToken regexp.TBegin).
  cbn iota.
  assert (Htail : regexp.lex regexp.Top (bytes "_[0-9]*\.log") =
                  inr [regexp.TLit "_"; regexp.TClass false [("0"%char, "9"%char)];
                       regexp.TStar; regexp.TLit "."; regexp.TLit "l"; regexp.TLit "o";
                       regexp.TLit "g"]) by reflexivity.
  destruct (lex_quoted (bytes cn) _ _ Htail) as [Hq|[e Hq]].
  - left.
    rewrite (lex_literal (bytes "/var/log/pods/") _ _ eq_refl
               (lex_literal (bytes dir) _ _ Hdir
                  (lex_literal (bytes "/") _ _ eq_refl Hq))).
    cbn [regexp.emit]. rewrite !app_assoc, <- !map_app, <- !app_assoc.
    set (q := bytes "/var/log/pods/" ++ bytes dir ++ bytes "/" ++ bytes cn).
    change (regexp.branches (regexp.TBegin :: ?ts))
      with (match regexp.branches ts with
            | b :: bs => (regexp.TBegin :: b) :: bs
            | [] => [[regexp.TBegin]]
            end).
    rewrite branches_literals.
    change (regexp.branches (regexp.TLit "_" :: ?ts)) with [regexp.TLit "_"%char :: ts].
    cbn [regexp.parse_alt].
    assert (Hq0 : exists c0 q', q = c0 :: q') by (by eexists _, _).
    destruct Hq0 as (c0 & q' & Hq0). rewrite Hq0.
    change (regexp.parse_seq (regexp.TBegin :: map regexp.TLit (c0 :: q') ++ ?ts))
      with (regexp.cons_piece regexp.OpBeginText
              (regexp.parse_seq (map regexp.TLit (c0 :: q') ++ ts))).
    rewrite parse_seq_literals. done.
  - right. exists e.
    rewrite (lex_literal_error (bytes "/var/log/pods/") _ _ eq_refl
               (lex_literal_error (bytes dir) _ _ Hdir
                  (lex_literal_error (bytes "/") _ _ eq_refl Hq))).
    done.
Qed.

Lemma match_bytes_literal_byte c pattern name :
  literal_byte c = true ->
  filepath.match_bytes (c :: pattern) name =
  match name with
  | c' :: name' =>
      if byte_eqb c c' then filepath.match_bytes pattern name' else Some false
  | [] => Some false
  end.
Proof.
  intros H. cbn [filepath.match_bytes].
  assert (byte_eqb c "*" = false /\ byte_eqb c "?" = false /\
          byte_eqb c "[" || byte_eqb c "\" = false) as (-> & -> & ->); [|done].
  by_byte c H.
Qed.

Lemma match_bytes_literal_prefix p pattern name :
  forallb literal_byte p = true ->
  filepath.match_bytes (p ++ pattern) name = Some true ->
  exists t, name = p ++ t /\ filepath.match_bytes pattern t = Some true.
Proof.
  intros Hp. revert name. induction p as [|c p IH]; intros name Hm.
  - by exists name.
  - cbn in Hp. apply andb_true_iff in Hp as [Hc Hp].
    cbn [app] in Hm. rewrite (match_bytes_literal_byte c _ _ Hc) in Hm.
    destruct name as [|c' name]; [done|].
    destruct (byte_eqb c c') eqn:E; [|done]. apply byte_eqb_true in E as <-.
    destruct (IH Hp name Hm) as (t & -> & Ht). by exists t.
Qed.

Lemma plain_bytes_literal p :
  forallb plain_byte p = true -> forallb literal_byte p = true.
Proof.
  intros H. apply forallb_forall. intros c Hc.
  rewrite forallb_forall in H. apply H in Hc. unfold plain_byte in Hc.
  by apply andb_true_iff in Hc as [? _].
Qed.

(** ** The file-name filter *)



Lemma legacy_app_filter_compiles :
  regexp.Compile "^/var/log/containers/web-1_default_app-.+\.log" =
  inr (regexp.OpConcat regexp.OpBeginText
         (regexp.literal (bytes "/var/log/containers/web-1_default_app-")
            (regexp.OpConcat (regexp.OpPlus regexp.OpAnyCharNotNL)
               (regexp.literal (bytes ".log") regexp.OpEmptyMatch)))).
Proof. vm_compute. reflexivity. Qed.

Lemma legacy_app_filter uid annotations fileName :
  tailer.accepts
    (determineFilterFunc
       {| v1.Name := "web-1"; v1.Namespace := "default"; v1.UID := uid;
          v1.Annotations := annotations |} "app" true) fileName =
  fst (regexp.Match "^/var/log/containers/web-1_default_app-.+\.log" (bytes fileName)).
Proof. reflexivity. Qed.

(** C5 (as amended): with the empty container name
    [determineFilterFunc] yields the nil filter, which accepts every
    file name; with the container name [app], in legacy mode, for the
    pod [web-1] in [default], the filter accepts the path
    [/var/log/containers/web-1_default_app-<id>.log] for every non-empty
    [<id>] without a line break and rejects
    [/var/log/containers/web-1_default_sidecar-<id>.log] for every
    [<id>]; the bare file names, without the directory, are rejected. *)
Theorem C5_container_filter :
  (forall pod legacy fileName,
     determineFilterFunc pod "" legacy = None
     /\ tailer.accepts (determineFilterFunc pod "" legacy) fileName = true)
  /\ (forall uid annotations id,
        let pod := {| v1.Name := "web-1"; v1.Namespace := "default"; v1.UID := uid;
                      v1.Annotations := annotations |} in
        let filter := determineFilterFunc pod "app" true in
        (id <> "" ->
         Forall (fun c => c <> regexp.newline) (bytes id) ->
         tailer.accepts filter
           ("/var/log/containers/web-1_default_app-" +:+ id +:+ ".log") = true)
        /\ tailer.accepts filter
             ("/var/log/containers/web-1_default_sidecar-" +:+ id +:+ ".log") = false
        /\ tailer.accepts filter ("web-1_default_app-" +:+ id +:+ ".log") = false
        /\ tailer.accepts filter ("web-1_default_sidecar-" +:+ id +:+ ".log") = false).
Proof.
  split; [done|].
  intros uid annotations id pod filter. subst pod filter.
  rewrite !legacy_app_filter. unfold regexp.Match.
  rewrite legacy_app_filter_compiles. cbn [fst]. split; [|split; [|split]].
  - intros Hid Hnl. apply regexp_facts.search_iff.
    exists [], (bytes ("/var/log/containers/web-1_default_app-" +:+ id +:+ ".log")), [].
    split; [by rewrite app_nil_r|].
    apply regexp_facts.matches_begin_concat. split; [done|].
    apply regexp_facts.matches_literal. exists (bytes id ++ bytes ".log").
    split; [by rewrite !bytes_app|].
    apply regexp_facts.matches_concat. exists (bytes id), (bytes ".log").
    split; [done|]. split.
    + destruct id as [|c id]; [done|]. cbn [bytes] in *.
      apply Forall_cons in Hnl as [Hc Hnl].
      cbn [regexp.matches]. apply existsb_splits. exists [c], (bytes id).
      split; [done|]. cbn.
      destruct (byte_eqb c regexp.newline) eqn:E.
      { by apply byte_eqb_true in E. }
      cbn. by apply regexp_facts.star_any.
    + apply regexp_facts.matches_literal. by exists [].
  - destruct (regexp.search _ _) eqn:Hm; [exfalso|done].
    apply regexp_facts.search_anchored_literal in Hm as (t & Ht).
    rewrite bytes_app in Ht. cbn in Ht. discriminate.
  - destruct (regexp.search _ _) eqn:Hm; [exfalso|done].
    apply regexp_facts.search_anchored_literal in Hm as (t & Ht).
    rewrite bytes_app in Ht. cbn in Ht. discriminate.
  - destruct (regexp.search _ _) eqn:Hm; [exfalso|done].
    apply regexp_facts.search_anchored_literal in Hm as (t & Ht).
    rewrite bytes_app in Ht. cbn in Ht. discriminate.
Qed.

(** The filter of [app] on the log files of two containers of [web-1]. *)
Lemma C5_container_filter_witness :
  let filter := determineFilterFunc sample.web1 "app" true in
  tailer.accepts filter "/var/log/containers/web-1_default_app-4f2a.log" = true
  /\ tailer.accepts filter "/var/log/containers/web-1_default_sidecar-4f2a.log" = false.
Proof.
  destruct C5_container_filter as [_ H].
  destruct (H "u-1" ∅ "4f2a") as (H1 & H2 & _).
  split; [|exact H2]. apply H1; [discriminate|].
  repeat constructor; discriminate.
Defined.

(** C5 (as stated) fails: the filter of [app] rejects the file name
    [web-1_default_app-4f2a.log], because its expression is anchored on
    the directory [/var/log/containers/]; and in that directory it
    rejects the name with an empty [<id>] and the one whose [<id>] is a
    line break. *)
Lemma C5_bare_file_name_is_rejected :
  let filter := determineFilterFunc sample.web1 "app" true in
  tailer.accepts filter "web-1_default_app-4f2a.log" = false
  /\ tailer.accepts filter "/var/log/containers/web-1_default_app-.log" = false
  /\ tailer.accepts filter
       ("/var/log/containers/web-1_default_app-" +:+ String regexp.newline ".log")
     = false.
Proof. vm_compute. repeat split. Qed.

(** ** More on the regexp fragment *)

Lemma foldr_literal_app p q k :
  regexp.literal (p ++ q) k = regexp.literal p (regexp.literal q k).
Proof. unfold regexp.literal. apply foldr_app. Qed.

(** Iterating an expression that matches single bytes. *)
Lemma star_rounds_bytes (m : bool -> bool -> list ascii -> bool) (P : ascii -> bool) :
  (forall b e s, m b e s = true <-> exists c, s = [c] /\ P c = true) ->
  forall fuel b e s, length s <= fuel ->
    regexp.star_rounds m fuel b e s = true <-> forallb P s = true.
Proof.
  intros Hm. induction fuel as [|fuel IH]; intros b e s Hlen.
  - destruct s; [done|cbn in Hlen; lia].
  - destruct s as [|c s]; [done|].
    cbn [regexp.star_rounds is_nil forallb]. rewrite existsb_splits. split.
    + intros (s1 & s2 & Heq & H). cbn [fst snd] in H.
      destruct s1 as [|c1 s1]; [done|]. cbn [is_nil] in H.
      destruct (m b (e && is_nil s2) (c1 :: s1)) eqn:E; [|done].
      apply Hm in E as (c0 & E0 & Hc0). inversion E0; subst.
      inversion Heq; subst. rewrite Hc0. cbn.
      apply (IH false e); [cbn in Hlen; lia|done].
    + intros H. apply andb_true_iff in H as [Hc Hs].
      exists [c], s. split; [done|]. cbn [fst snd is_nil].
      assert (m b (e && is_nil s) [c] = true) as -> by (apply Hm; by exists c).
      apply IH; [cbn in Hlen; lia|done].
Qed.

Lemma matches_any_byte b e s :
  regexp.matches regexp.OpAnyCharNotNL b e s = true <->
  exists c, s = [c] /\ not_newline c = true.
Proof.
  cbn. destruct s as [|c [|c' s]].
  - split; [done|]. by intros (c0 & ? & _).
  - split; [intros H; by exists c|]. by intros (c0 & [= ->] & H).
  - split; [done|]. by intros (c0 & ? & _).
Qed.

Lemma matches_class_byte neg rs b e s :
  regexp.matches (regexp.OpCharClass neg rs) b e s = true <->
  exists c, s = [c] /\ regexp.in_class neg rs c = true.
Proof.
  cbn. destruct s as [|c [|c' s]].
  - split; [done|]. by intros (c0 & ? & _).
  - split; [intros H; by exists c|]. by intros (c0 & [= ->] & H).
  - split; [done|]. by intros (c0 & ? & _).
Qed.

Lemma matches_plus r b e s :
  regexp.matches (regexp.OpPlus r) b e s = true <->
  exists s1 s2, s = s1 ++ s2 /\
    regexp.matches r b (e && is_nil s2) s1 = true /\
    regexp.star_rounds (regexp.matches r) (length s2) (b && is_nil s1) e s2 = true.
Proof.
  change (regexp.matches (regexp.OpPlus r) b e s)
    with (existsb (fun p =>
                     if regexp.matches r b (e && is_nil (snd p)) (fst p)
                     then regexp.star_rounds (regexp.matches r) (length (snd p))
                            (b && is_nil (fst p)) e (snd p)
                     else false) (splits s)).
  rewrite existsb_splits. split.
  - intros (s1 & s2 & -> & H). cbn [fst snd] in H. exists s1, s2.
    destruct (regexp.matches r b (e && is_nil s2) s1); [done|discriminate].
  - intros (s1 & s2 & -> & H1 & H2). exists s1, s2. cbn [fst snd]. by rewrite H1.
Qed.

Lemma matches_plus_any b e s :
  regexp.matches (regexp.OpPlus regexp.OpAnyCharNotNL) b e s = true <->
  s <> [] /\ forallb not_newline s = true.
Proof.
  rewrite matches_plus. split.
  - intros (s1 & s2 & -> & E & H).
    apply matches_any_byte in E as (c & -> & Hc).
    apply (star_rounds_bytes _ not_newline matches_any_byte) in H; [|done].
    split; [done|]. cbn. by rewrite Hc.
  - intros [Hne H]. destruct s as [|c s]; [done|].
    cbn in H. apply andb_true_iff in H as [Hc Hs].
    exists [c], s. split; [done|]. split.
    + apply matches_any_byte. by exists c.
    + by apply (star_rounds_bytes _ not_newline matches_any_byte).
Qed.

Lemma matches_star_class neg rs b e s :
  regexp.matches (regexp.OpStar (regexp.OpCharClass neg rs)) b e s = true <->
  forallb (regexp.in_class neg rs) s = true.
Proof.
  change (regexp.matches (regexp.OpStar (regexp.OpCharClass neg rs)) b e s)
    with (regexp.star_rounds (regexp.matches (regexp.OpCharClass neg rs))
            (length s) b e s).
  by apply (star_rounds_bytes _ (regexp.in_class neg rs) (matches_class_byte neg rs)).
Qed.

Lemma matches_literal_only p b e s :
  regexp.matches (regexp.literal p regexp.OpEmptyMatch) b e s = true <-> s = p.
Proof.
  rewrite regexp_facts.matches_literal. split.
  - intros (t & -> & H). cbn in H. apply is_nil_true in H as ->. by rewrite app_nil_r.
  - intros ->. exists []. by rewrite app_nil_r.
Qed.

(** A search with an expression anchored at the beginning. *)
Lemma search_anchored k s :
  regexp.search (regexp.OpConcat regexp.OpBeginText k) s = true <->
  exists mid post, s = mid ++ post /\ regexp.matches k true (is_nil post) mid = true.
Proof.
  rewrite regexp_facts.search_iff. split.
  - intros (pre & mid & post & -> & H).
    apply regexp_facts.matches_begin_concat in H as [Hpre H].
    apply is_nil_true in Hpre as ->. by exists mid, post.
  - intros (mid & post & -> & H). exists [], mid, post. split; [done|].
    by apply regexp_facts.matches_begin_concat.
Qed.

Lemma in_class_digit c :
  regexp.in_class false [("0"%char, "9"%char)] c = digit c.
Proof. unfold regexp.in_class, regexp.in_range, digit. cbn. by rewrite orb_false_r. Qed.

Lemma lex_quoted_ascii p rest ts :
  forallb is_ascii p = true ->
  regexp.lex regexp.Top rest = inr ts ->
  regexp.lex regexp.Top (regexp.quote_bytes p ++ rest) = inr (map regexp.TLit p ++ ts).
Proof.
  intros Hp Hrest. induction p as [|c p IH]; [done|].
  cbn in Hp. apply andb_true_iff in Hp as [Hc Hp].
  cbn [regexp.quote_bytes]. destruct (regexp.special c) eqn:Hs.
  - cbn [app regexp.lex].
    change (regexp.top_byte "\"%char) with regexp.BBackslash. cbn iota.
    by rewrite (escape_special c Hs), (IH Hp).
  - cbn [app regexp.lex]. by rewrite (top_byte_not_special c Hs), Hc, (IH Hp).
Qed.

(** With an ASCII container name the filter pattern of the new layout
    always compiles. *)
Lemma compile_pods_filter_ascii dir cn :
  all_bytes literal_byte dir = true ->
  all_bytes is_ascii cn = true ->
  regexp.Compile (pods_filter_pattern dir cn) =
    inr (regexp.OpConcat regexp.OpBeginText
           (regexp.literal (bytes "/var/log/pods/" ++ bytes dir ++ bytes "/" ++ bytes cn)
              pods_filter_tail)).
Proof.
  intros Hdir Hcn.
  destruct (compile_pods_filter dir cn Hdir) as [H|[e H]]; [done|exfalso].
  unfold regexp.Compile, pods_filter_pattern, regexp.QuoteMeta in H.
  rewrite !bytes_app, bytes_of_bytes in H.
  change (bytes "^/var/log/pods/") with ("^"%char :: bytes "/var/log/pods/") in H.
  cbn [app regexp.lex] in H.
  change (regexp.top_byte "^"%char) with (regexp.BToken regexp.TBegin) in H.
  cbn iota in H.
  rewrite (lex_literal (bytes "/var/log/pods/") _ _ eq_refl
             (lex_literal (bytes dir) _ _ Hdir
                (lex_literal (bytes "/") _ _ eq_refl
                   (lex_quoted_ascii (bytes cn) (bytes "_[0-9]*\.log") _ Hcn eq_refl))))
    in H.
  cbn [regexp.emit] in H. rewrite !app_assoc, <- !map_app, <- !app_assoc in H.
  set (q := bytes "/var/log/pods/" ++ bytes dir ++ bytes "/" ++ bytes cn) in H.
  change (regexp.branches (regexp.TBegin :: ?ts))
    with (match regexp.branches ts with
          | b :: bs => (regexp.TBegin :: b) :: bs
          | [] => [[regexp.TBegin]]
          end) in H.
  rewrite branches_literals in H.
  change (regexp.branches (regexp.TLit "_" :: ?ts))
    with [regexp.TLit "_"%char :: ts] in H.
  cbn [regexp.parse_alt] in H.
  assert (Hq0 : exists c0 q', q = c0 :: q') by (by eexists _, _).
  destruct Hq0 as (c0 & q' & Hq0). rewrite Hq0 in H.
  change (regexp.parse_seq (regexp.TBegin :: map regexp.TLit (c0 :: q') ++ ?ts))
    with (regexp.cons_piece regexp.OpBeginText
            (regexp.parse_seq (map regexp.TLit (c0 :: q') ++ ts))) in H.
  rewrite parse_seq_literals in H. done.
Qed.

Lemma compile_legacy_filter name ns cn :
  all_bytes literal_byte name = true ->
  all_bytes literal_byte ns = true ->
  all_bytes literal_byte cn = true ->
  regexp.Compile (legacy_filter_pattern name ns cn) =
    inr (regexp.OpConcat regexp.OpBeginText
           (regexp.literal
              (bytes "/var/log/containers/" ++ bytes name ++ bytes "_" ++ bytes ns
               ++ bytes "_" ++ bytes cn)
              legacy_filter_tail)).
Proof.
  intros Hname Hns Hcn. unfold regexp.Compile, legacy_filter_pattern.
  rewrite !bytes_app.
  change (bytes "^/var/log/containers/") with ("^"%char :: bytes "/var/log/containers/").
  cbn [app regexp.lex]. change (regexp.top_byte "^"%char) with (regexp.BToken regexp.TBegin).
  cbn iota.
  rewrite (lex_literal (bytes "/var/log/containers/") _ _ eq_refl
             (lex_literal (bytes name) _ _ Hname
                (lex_literal (bytes "_") _ _ eq_refl
                   (lex_literal (bytes ns) _ _ Hns
                      (lex_literal (bytes "_") _ _ eq_refl
                         (lex_literal (bytes cn) (bytes "-.+\.log") _ Hcn eq_refl)))))).
  cbn [regexp.emit]. rewrite !app_assoc, <- !map_app, <- !app_assoc.
  set (q := bytes "/var/log/containers/" ++ bytes name ++ bytes "_" ++ bytes ns
            ++ bytes "_" ++ bytes cn).
  change (regexp.branches (regexp.TBegin :: ?ts))
    with (match regexp.branches ts with
          | b :: bs => (regexp.TBegin :: b) :: bs
          | [] => [[regexp.TBegin]]
          end).
  rewrite branches_literals.
  change (regexp.branches (regexp.TLit "-" :: ?ts)) with [regexp.TLit "-"%char :: ts].
  cbn [regexp.parse_alt].
  assert (Hq0 : exists c0 q', q = c0 :: q') by (by eexists _, _).
  destruct Hq0 as (c0 & q' & Hq0). rewrite Hq0.
  change (regexp.parse_seq (regexp.TBegin :: map regexp.TLit (c0 :: q') ++ ?ts))
    with (regexp.cons_piece regexp.OpBeginText
            (regexp.parse_seq (map regexp.TLit (c0 :: q') ++ ts))).
  rewrite parse_seq_literals. done.
Qed.

Lemma forallb_class_digit d :
  forallb (regexp.in_class false [("0"%char, "9"%char)]) d = forallb digit d.
Proof. induction d as [|c d IH]; [done|]. cbn [forallb]. by rewrite in_class_digit, IH. Qed.

Lemma matches_pods_filter_tail b e t :
  regexp.matches pods_filter_tail b e t = true <->
  exists d, forallb digit d = true /\ t = bytes "_" ++ d ++ bytes ".log".
Proof.
  unfold pods_filter_tail. rewrite regexp_facts.matches_concat. split.
  - intros (s1 & s2 & -> & H1 & H2).
    apply regexp_facts.matches_literal_byte in H1 as ->.
    apply regexp_facts.matches_concat in H2 as (d & s3 & -> & Hd & H3).
    apply matches_star_class in Hd. apply matches_literal_only in H3 as ->.
    exists d. split; [|done]. by rewrite <- forallb_class_digit.
  - intros (d & Hd & ->). exists (bytes "_"), (d ++ bytes ".log").
    split; [done|]. split; [by apply regexp_facts.matches_literal_byte|].
    apply regexp_facts.matches_concat. exists d, (bytes ".log").
    split; [done|]. split; [|by apply matches_literal_only].
    apply matches_star_class. by rewrite forallb_class_digit.
Qed.

Lemma matches_legacy_filter_tail b e t :
  regexp.matches legacy_filter_tail b e t = true <->
  exists id, id <> [] /\ forallb not_newline id = true
             /\ t = bytes "-" ++ id ++ bytes ".log".
Proof.
  unfold legacy_filter_tail. rewrite regexp_facts.matches_concat. split.
  - intros (s1 & s2 & -> & H1 & H2).
    apply regexp_facts.matches_literal_byte in H1 as ->.
    apply regexp_facts.matches_concat in H2 as (id & s3 & -> & Hid & H3).
    apply matches_plus_any in Hid as [Hne Hid]. apply matches_literal_only in H3 as ->.
    by exists id.
  - intros (id & Hne & Hid & ->). exists (bytes "-"), (id ++ bytes ".log").
    split; [done|]. split; [by apply regexp_facts.matches_literal_byte|].
    apply regexp_facts.matches_concat. exists id, (bytes ".log").
    split; [done|]. split; [by apply matches_plus_any|by apply matches_literal_only].
Qed.

(** ** More on the glob fragment *)

Lemma forallb_weaken (P Q : ascii -> bool) l :
  (forall c, P c = true -> Q c = true) -> forallb P l = true -> forallb Q l = true.
Proof.
  intros HPQ. induction l as [|c l IH]; [done|]. cbn.
  intros H. apply andb_true_iff in H as [Hc Hl]. by rewrite (HPQ c Hc), IH.
Qed.

Lemma match_bytes_glob_literal c pattern name :
  glob_literal c = true ->
  filepath.match_bytes (c :: pattern) name =
  match name with
  | c' :: name' =>
      if byte_eqb c c' then filepath.match_bytes pattern name' else Some false
  | [] => Some false
  end.
Proof.
  intros H. cbn [filepath.match_bytes].
  assert (byte_eqb c "*" = false /\ byte_eqb c "?" = false /\
          byte_eqb c "[" || byte_eqb c "\" = false) as (-> & -> & ->); [|done].
  by_byte c H.
Qed.

Lemma literal_byte_glob c : literal_byte c = true -> glob_literal c = true.
Proof. intros H. by_byte c H. Qed.

Lemma match_bytes_literal_same p pattern t :
  forallb glob_literal p = true ->
  filepath.match_bytes (p ++ pattern) (p ++ t) = filepath.match_bytes pattern t.
Proof.
  intros Hp. induction p as [|c p IH]; [done|].
  cbn in Hp. apply andb_true_iff in Hp as [Hc Hp].
  cbn [app]. rewrite (match_bytes_glob_literal c _ _ Hc).
  assert (byte_eqb c c = true) as -> by by apply byte_eqb_true.
  by apply IH.
Qed.

Lemma match_bytes_literal_total p name :
  forallb glob_literal p = true -> exists r, filepath.match_bytes p name = Some r.
Proof.
  intros Hp. revert name. induction p as [|c p IH]; intros name; [by eexists|].
  cbn in Hp. apply andb_true_iff in Hp as [Hc Hp].
  rewrite (match_bytes_glob_literal c _ _ Hc).
  destruct name as [|c' name]; [by eexists|].
  destruct (byte_eqb c c'); [by apply IH|by eexists].
Qed.

Lemma star_to_end name :
  filepath.star (filepath.match_bytes []) name = Some (forallb not_separator name).
Proof.
  induction name as [|c name IH]; [done|].
  cbn. unfold not_separator at 1. by destruct (byte_eqb c filepath.Separator).
Qed.

Lemma star_hit k name : k name = Some true -> filepath.star k name = Some true.
Proof. intros H. destruct name; cbn; by rewrite H. Qed.

Lemma star_before_literal p mid :
  forallb glob_literal p = true ->
  forallb not_separator mid = true ->
  filepath.star (filepath.match_bytes p) (mid ++ p) = Some true.
Proof.
  intros Hp. induction mid as [|c mid IH]; intros Hmid.
  - cbn [app]. apply star_hit.
    pose proof (match_bytes_literal_same p [] [] Hp) as H.
    by rewrite !app_nil_r in H.
  - cbn in Hmid. apply andb_true_iff in Hmid as [Hc Hmid].
    cbn [app filepath.star].
    destruct (match_bytes_literal_total p (c :: mid ++ p) Hp) as [[|] ->]; [done|].
    unfold not_separator in Hc. destruct (byte_eqb c filepath.Separator); [done|].
    by apply IH.
Qed.

(** The glob [<dir>/*] matches the entries of [dir]. *)
Lemma match_dir_star dir name :
  all_bytes literal_byte dir = true ->
  filepath.Match (dir +:+ "/*") name = Some true <->
  exists base, all_bytes not_separator base = true /\ name = dir +:+ "/" +:+ base.
Proof.
  intros Hdir. unfold filepath.Match. rewrite bytes_app.
  change (bytes "/*") with (bytes "/" ++ bytes "*"). rewrite app_assoc.
  assert (Hp : forallb literal_byte (bytes dir ++ bytes "/") = true).
  { rewrite forallb_app. unfold all_bytes in Hdir. by rewrite Hdir. }
  split.
  - intros H. apply (match_bytes_literal_prefix _ _ _ Hp) in H as (t & Ht & H).
    change (filepath.match_bytes (bytes "*") t)
      with (filepath.star (filepath.match_bytes []) t) in H.
    rewrite star_to_end in H.
    assert (Hsep : forallb not_separator t = true) by congruence. clear H.
    exists (of_bytes t). unfold all_bytes. rewrite bytes_of_bytes. split; [done|].
    apply bytes_inj. rewrite Ht, !bytes_app, bytes_of_bytes. by rewrite <- app_assoc.
  - intros (base & Hbase & ->). rewrite !bytes_app, app_assoc.
    rewrite (match_bytes_literal_same _ _ _
               (forallb_weaken _ _ _ literal_byte_glob Hp)).
    change (filepath.match_bytes (bytes "*") (bytes base))
      with (filepath.star (filepath.match_bytes []) (bytes base)).
    rewrite star_to_end. unfold all_bytes in Hbase. by rewrite Hbase.
Qed.

Lemma digit_not_separator c : digit c = true -> not_separator c = true.
Proof. intros H. by_byte c H. Qed.

(** ** The file-name filter, in full *)

Lemma determineFilterFunc_pods pod cn fileName :
  cn <> "" ->
  tailer.accepts (determineFilterFunc pod cn false) fileName =
  fst (regexp.Match
         (pods_filter_pattern
            (match v1.Annotations pod !! configHash with
             | Some hash => hash
             | None => v1.UID pod
             end) cn) (bytes fileName)).
Proof. intros Hcn. unfold determineFilterFunc. by destruct (decide (cn = "")). Qed.

Lemma determineFilterFunc_legacy pod cn fileName :
  cn <> "" ->
  tailer.accepts (determineFilterFunc pod cn true) fileName =
  fst (regexp.Match (legacy_filter_pattern (v1.Name pod) (v1.Namespace pod) cn)
         (bytes fileName)).
Proof. intros Hcn. unfold determineFilterFunc. by destruct (decide (cn = "")). Qed.

(** X1: outside legacy mode, for a directory name (the hash if the pod
    is annotated, else the UID) made of literal bytes and an ASCII
    container name, the filter accepts exactly the paths
    [/var/log/pods/<dir>/<container>_<n>.log<rest>] where [<n>] is a
    possibly empty run of digits and [<rest>] is anything: the container
    name is taken literally, metacharacters included, and nothing
    anchors the end. *)
Theorem X1_new_layout_filter_accepts (pod : v1.Pod) (containerName fileName : string) :
  containerName <> "" ->
  let dir := match v1.Annotations pod !! configHash with
             | Some hash => hash
             | None => v1.UID pod
             end in
  all_bytes literal_byte dir = true ->
  all_bytes is_ascii containerName = true ->
  tailer.accepts (determineFilterFunc pod containerName false) fileName = true <->
  exists n rest,
    all_bytes digit n = true /\
    fileName = "/var/log/pods/" +:+ dir +:+ "/" +:+ containerName +:+ "_" +:+ n
               +:+ ".log" +:+ rest.
Proof.
  intros Hcn dir Hdir Hascii.
  rewrite (determineFilterFunc_pods pod containerName fileName Hcn). fold dir.
  unfold regexp.Match. rewrite (compile_pods_filter_ascii dir containerName Hdir Hascii).
  cbn [fst]. rewrite search_anchored. split.
  - intros (mid & post & Hf & H).
    apply regexp_facts.matches_literal in H as (t & -> & H).
    apply matches_pods_filter_tail in H as (d & Hd & ->).
    exists (of_bytes d), (of_bytes post). unfold all_bytes. rewrite bytes_of_bytes.
    split; [done|]. apply bytes_inj.
    rewrite !bytes_app, !bytes_of_bytes, Hf. by rewrite <- !app_assoc.
  - intros (n & rest & Hn & ->).
    exists (bytes "/var/log/pods/" ++ bytes dir ++ bytes "/" ++ bytes containerName
            ++ bytes "_" ++ bytes n ++ bytes ".log"), (bytes rest).
    split; [rewrite !bytes_app; by rewrite <- !app_assoc|].
    rewrite !app_assoc, <- (app_assoc _ (bytes n)), <- (app_assoc _ (bytes "_")).
    rewrite <- !(app_assoc (bytes "/var/log/pods/")).
    apply regexp_facts.matches_literal. eexists. split; [done|].
    apply matches_pods_filter_tail. by exists (bytes n).
Qed.

(** The filter of the container [a.b] of a pod without annotation. *)
Lemma X1_new_layout_filter_accepts_witness :
  tailer.accepts (determineFilterFunc sample.web1 "a.b" false)
    "/var/log/pods/u-1/a.b_.log.1" = true.
Proof.
  apply (X1_new_layout_filter_accepts sample.web1 "a.b"); try reflexivity; [discriminate|].
  exists "", ".1". split; reflexivity.
Defined.

(** X2: in legacy mode, for a pod name, a namespace and a container
    name made of literal bytes, the filter accepts exactly the paths
    [/var/log/containers/<name>_<namespace>_<container>-<id>.log<rest>]
    where [<id>] is a non-empty run of bytes without a line break and
    [<rest>] is anything. *)
Theorem X2_legacy_filter_accepts (pod : v1.Pod) (containerName fileName : string) :
  containerName <> "" ->
  all_bytes literal_byte (v1.Name pod) = true ->
  all_bytes literal_byte (v1.Namespace pod) = true ->
  all_bytes literal_byte containerName = true ->
  tailer.accepts (determineFilterFunc pod containerName true) fileName = true <->
  exists id rest,
    id <> "" /\ all_bytes not_newline id = true /\
    fileName = "/var/log/containers/" +:+ v1.Name pod +:+ "_" +:+ v1.Namespace pod
               +:+ "_" +:+ containerName +:+ "-" +:+ id +:+ ".log" +:+ rest.
Proof.
  intros Hcn Hname Hns Hlit.
  rewrite (determineFilterFunc_legacy pod containerName fileName Hcn).
  unfold regexp.Match. rewrite (compile_legacy_filter _ _ _ Hname Hns Hlit).
  cbn [fst]. rewrite search_anchored. split.
  - intros (mid & post & Hf & H).
    apply regexp_facts.matches_literal in H as (t & -> & H).
    apply matches_legacy_filter_tail in H as (id & Hne & Hid & ->).
    exists (of_bytes id), (of_bytes post). unfold all_bytes. rewrite bytes_of_bytes.
    split; [by destruct id|]. split; [done|]. apply bytes_inj.
    rewrite !bytes_app, !bytes_of_bytes, Hf. by rewrite <- !app_assoc.
  - intros (id & rest & Hne & Hid & ->).
    exists (bytes "/var/log/containers/" ++ bytes (v1.Name pod) ++ bytes "_"
            ++ bytes (v1.Namespace pod) ++ bytes "_" ++ bytes containerName
            ++ bytes "-" ++ bytes id ++ bytes ".log"), (bytes rest).
    split; [rewrite !bytes_app; by rewrite <- !app_assoc|].
    replace (bytes "/var/log/containers/" ++ bytes (v1.Name pod) ++ bytes "_"
             ++ bytes (v1.Namespace pod) ++ bytes "_" ++ bytes containerName
             ++ bytes "-" ++ bytes id ++ bytes ".log")
      with ((bytes "/var/log/containers/" ++ bytes (v1.Name pod) ++ bytes "_"
             ++ bytes (v1.Namespace pod) ++ bytes "_" ++ bytes containerName)
            ++ (bytes "-" ++ bytes id ++ bytes ".log"))
      by (by rewrite <- !app_assoc).
    apply regexp_facts.matches_literal. eexists. split; [done|].
    apply matches_legacy_filter_tail. exists (bytes id).
    split; [by destruct id|]. by split.
Qed.

(** The legacy filter of [app] on a rotated file of that container. *)
Lemma X2_legacy_filter_accepts_witness :
  tailer.accepts (determineFilterFunc sample.web1 "app" true)
    "/var/log/containers/web-1_default_app-4f2a.log.gz" = true.
Proof.
  apply (X2_legacy_filter_accepts sample.web1 "app"); try reflexivity; [discriminate|].
  exists "4f2a", ".gz". repeat split. discriminate.
Defined.

Lemma plain_literal s : plain s = true -> all_bytes literal_byte s = true.
Proof. apply plain_bytes_literal. Qed.

Lemma plain_not_separator c : plain_byte c = true -> not_separator c = true.
Proof.
  unfold plain_byte, not_separator. intros H. by apply andb_true_iff in H as [_ H].
Qed.

(** X3: outside legacy mode, when the directory the filter is keyed by
    (the hash if the pod is annotated, else the UID) exists, the
    resolver and the filter agree: the log file
    [/var/log/pods/<dir>/<container>_<n>.log] of the configured
    container matches the resolved pattern and passes the filter. *)
Theorem X3_new_layout_pattern_and_filter_agree (h : Host) (pod : v1.Pod)
    (containerName n : string) :
  containerName <> "" ->
  let dir := match v1.Annotations pod !! configHash with
             | Some hash => hash
             | None => v1.UID pod
             end in
  plain dir = true ->
  all_bytes is_ascii containerName = true ->
  all_bytes not_separator containerName = true ->
  all_bytes digit n = true ->
  found h ("/var/log/pods/" +:+ dir) = true ->
  let file := "/var/log/pods/" +:+ dir +:+ "/" +:+ containerName +:+ "_" +:+ n
              +:+ ".log" in
  fst (determineLogPattern h pod false) = ("/var/log/pods/" +:+ dir +:+ "/*", None)
  /\ filepath.Match ("/var/log/pods/" +:+ dir +:+ "/*") file = Some true
  /\ tailer.accepts (determineFilterFunc pod containerName false) file = true.
Proof.
  intros Hcn dir Hdir Hascii Hsep Hn Hfound file. split; [|split].
  - rewrite determineLogPattern_new_layout. cbv zeta. subst dir.
    destruct (v1.Annotations pod !! configHash); by rewrite Hfound.
  - unfold filepath.Match. subst file. rewrite !bytes_app.
    change (bytes "/*") with (bytes "/" ++ bytes "*").
    rewrite !app_assoc, <- (app_assoc _ (bytes n)), <- (app_assoc _ (bytes "_")),
      <- (app_assoc _ (bytes containerName)).
    rewrite match_bytes_literal_same.
    + change (filepath.match_bytes (bytes "*") ?t)
        with (filepath.star (filepath.match_bytes []) t).
      rewrite star_to_end, !forallb_app. unfold all_bytes in *.
      by rewrite Hsep, (forallb_weaken _ _ _ digit_not_separator Hn).
    + rewrite !forallb_app.
      by rewrite (forallb_weaken _ _ _ literal_byte_glob (plain_literal _ Hdir)).
  - apply (X1_new_layout_filter_accepts pod containerName file Hcn);
      [by apply plain_literal|done|].
    by exists n, "".
Qed.

(** A pod without annotation whose UID directory exists. *)
Lemma X3_new_layout_pattern_and_filter_agree_witness :
  let h := sample.host_with ["/var/log/pods/u-1"] in
  filepath.Match "/var/log/pods/u-1/*" "/var/log/pods/u-1/app_0.log" = Some true
  /\ tailer.accepts (determineFilterFunc sample.web1 "app" false)
       "/var/log/pods/u-1/app_0.log" = true.
Proof.
  intros h.
  destruct (X3_new_layout_pattern_and_filter_agree h sample.web1 "app" "0")
    as (_ & H2 & H3); try reflexivity; [discriminate|].
  split; [exact H2|exact H3].
Defined.

(** X4: in legacy mode, for a pod name, a namespace and a container
    name made of literal bytes, the log file
    [/var/log/containers/<name>_<namespace>_<container>-<id>.log] of the
    configured container matches the resolved pattern and passes the
    filter, for every non-empty [<id>] without line break or
    separator. *)
Theorem X4_legacy_pattern_and_filter_agree (h : Host) (pod : v1.Pod)
    (containerName id : string) :
  containerName <> "" ->
  all_bytes literal_byte (v1.Name pod) = true ->
  all_bytes literal_byte (v1.Namespace pod) = true ->
  plain containerName = true ->
  id <> "" ->
  all_bytes not_newline id = true ->
  all_bytes not_separator id = true ->
  let file := "/var/log/containers/" +:+ v1.Name pod +:+ "_" +:+ v1.Namespace pod
              +:+ "_" +:+ containerName +:+ "-" +:+ id +:+ ".log" in
  filepath.Match (fst (fst (determineLogPattern h pod true))) file = Some true
  /\ tailer.accepts (determineFilterFunc pod containerName true) file = true.
Proof.
  intros Hcn Hname Hns Hplain Hid Hnl Hsep file. split.
  - change (fst (fst (determineLogPattern h pod true)))
      with ("/var/log/containers/" +:+ v1.Name pod +:+ "_" +:+ v1.Namespace pod
            +:+ "_*.log").
    unfold filepath.Match. subst file. rewrite !bytes_app.
    change (bytes "_*.log") with (bytes "_" ++ bytes "*" ++ bytes ".log").
    set (p := bytes "/var/log/containers/" ++ bytes (v1.Name pod) ++ bytes "_"
              ++ bytes (v1.Namespace pod) ++ bytes "_").
    set (mid := bytes containerName ++ bytes "-" ++ bytes id).
    replace (bytes "/var/log/containers/" ++ bytes (v1.Name pod) ++ bytes "_"
             ++ bytes (v1.Namespace pod) ++ bytes "_" ++ bytes "*" ++ bytes ".log")
      with (p ++ bytes "*" ++ bytes ".log")
      by (subst p; by rewrite <- !app_assoc).
    replace (bytes "/var/log/containers/" ++ bytes (v1.Name pod) ++ bytes "_"
             ++ bytes (v1.Namespace pod) ++ bytes "_" ++ bytes containerName
             ++ bytes "-" ++ bytes id ++ bytes ".log")
      with (p ++ mid ++ bytes ".log")
      by (subst p mid; by rewrite <- !app_assoc).
    rewrite match_bytes_literal_same.
    + change (filepath.match_bytes (bytes "*" ++ bytes ".log") ?t)
        with (filepath.star (filepath.match_bytes (bytes ".log")) t).
      apply star_before_literal; [done|].
      subst mid. rewrite !forallb_app. unfold all_bytes, plain in *.
      by rewrite Hsep, (forallb_weaken _ _ _ plain_not_separator Hplain).
    + subst p. rewrite !forallb_app. unfold all_bytes in *.
      by rewrite (forallb_weaken _ _ _ literal_byte_glob Hname),
                 (forallb_weaken _ _ _ literal_byte_glob Hns).
  - apply (X2_legacy_filter_accepts pod containerName file Hcn);
      [done|done|by apply plain_literal|].
    by exists id, "".
Qed.

(** The legacy log file of the container [app] of [web-1]. *)
Lemma X4_legacy_pattern_and_filter_agree_witness :
  filepath.Match "/var/log/containers/web-1_default_*.log"
    "/var/log/containers/web-1_default_app-4f2a.log" = Some true
  /\ tailer.accepts (determineFilterFunc sample.web1 "app" true)
       "/var/log/containers/web-1_default_app-4f2a.log" = true.
Proof.
  apply (X4_legacy_pattern_and_filter_agree sample.bare sample.web1 "app" "4f2a");
    try reflexivity; discriminate.
Defined.

(** ** The resolver and the constructor, in full *)

Lemma append_nonempty (s t : string) : s <> "" -> s +:+ t <> "".
Proof. by destruct s. Qed.

(** X5: in every mode the resolver returns a nil error exactly when it
    returns a non-empty pattern; it fails only outside legacy mode, only
    when [os.Stat] fails on the UID directory, and then with the message
    that names the UID. *)
Theorem X5_resolver_outcomes (h : Host) (pod : v1.Pod) (legacy : bool) :
  let out := fst (determineLogPattern h pod legacy) in
  (snd out = None <-> fst out <> "")
  /\ (forall e, snd out = Some e ->
        legacy = false
        /\ found h ("/var/log/pods/" +:+ v1.UID pod) = false
        /\ e = "Could not find specified log path for pod " +:+ v1.UID pod).
Proof.
  destruct legacy.
  - cbn. split; [|done]. split; [|done]. intros _. by apply append_nonempty.
  - cbv zeta. rewrite determineLogPattern_new_layout. cbv zeta.
    destruct (v1.Annotations pod !! configHash) as [hash|].
    + destruct (found h ("/var/log/pods/" +:+ hash)).
      * cbn. split; [|done]. split; [|done]. intros _. by apply append_nonempty.
      * destruct (found h ("/var/log/pods/" +:+ v1.UID pod)); cbn.
        -- split; [|done]. split; [|done]. intros _. by apply append_nonempty.
        -- split; [split; [done|by intros []]|]. by intros e [= <-].
    + destruct (found h ("/var/log/pods/" +:+ v1.UID pod)); cbn.
      * split; [|done]. split; [|done]. intros _. by apply append_nonempty.
      * split; [split; [done|by intros []]|]. by intros e [= <-].
Qed.

(** A failed resolution on the bare host. *)
Lemma X5_resolver_outcomes_witness :
  found sample.bare "/var/log/pods/u-1" = false.
Proof.
  destruct (X5_resolver_outcomes sample.bare sample.web1 false) as [_ H].
  destruct (H "Could not find specified log path for pod u-1" eq_refl) as (_ & H2 & _).
  exact H2.
Defined.

(** X6: [watcherForPod] returns an error exactly when the line-handler
    factory does, and it is that error: a failed resolution is never
    returned.  When it returns a watcher, the watcher sits at the given
    address, carries the filter of the configured container, and has the
    empty pattern exactly when the resolution failed. *)
Theorem X6_watcherForPod_result (pt : PodSetTailer) (h : Host) (a : nat) (pod : v1.Pod)
    (containerName : string) :
  let r := fst (watcherForPod pt h a pod containerName) in
  let resolved := fst (determineLogPattern h pod (legacyLogPaths pt)) in
  (forall err, r = inl err <->
     NewLineHandlerFactoryFromConfig h (config pt) (v1.UID pod) = inl err)
  /\ (forall w, r = inr w ->
        tailer.addr w = a
        /\ tailer.pattern w = fst resolved
        /\ tailer.filter w = determineFilterFunc pod containerName (legacyLogPaths pt)
        /\ (tailer.pattern w = "" <-> snd resolved <> None)).
Proof.
  cbv zeta. unfold watcherForPod.
  pose proof (X5_resolver_outcomes h pod (legacyLogPaths pt)) as [Hres _].
  cbv zeta in Hres.
  destruct (determineLogPattern h pod (legacyLogPaths pt)) as [[pat err0] tr].
  cbn [fst snd] in *.
  destruct (NewLineHandlerFactoryFromConfig h (config pt) (v1.UID pod)) as [err|hf];
    destruct err0 as [e0|]; unfold_M; (split; [intros e; split; congruence|]);
    intros w [= <-]; cbn; repeat split; try done.
  - intros _. destruct (decide (pat = "")) as [|Hne]; [done|].
    by apply Hres in Hne.
  - intros Hpat _. destruct Hres as [Hres _]. by destruct (Hres eq_refl).
Qed.

(** On a host whose factory rejects the configuration the error comes
    back, although all paths exist there. *)
Lemma X6_watcherForPod_result_witness :
  fst (watcherForPod (sample.agent "" "" false) sample.misconfigured 0 sample.web1 "")
  = inl "unknown parser".
Proof.
  destruct (X6_watcherForPod_result (sample.agent "" "" false) sample.misconfigured 0
              sample.web1 "") as [H _].
  apply H. reflexivity.
Defined.

(** ** Probes of the file system *)

Lemma stat_paths_app tr1 tr2 : stat_paths (tr1 ++ tr2) = stat_paths tr1 ++ stat_paths tr2.
Proof. apply omap_app. Qed.

Lemma determineLogPattern_probes h pod legacy :
  stat_paths (snd (determineLogPattern h pod legacy)) =
  if legacy then []
  else
    match v1.Annotations pod !! configHash with
    | Some hash =>
        ("/var/log/pods/" +:+ hash)
        :: (if found h ("/var/log/pods/" +:+ hash) then []
            else ["/var/log/pods/" +:+ v1.UID pod])
    | None => ["/var/log/pods/" +:+ v1.UID pod]
    end.
Proof.
  unfold determineLogPattern, found. destruct legacy; [done|].
  destruct (v1.Annotations pod !! configHash) as [hash|]; unfold_M.
  - destruct (os_Stat h ("/var/log/pods/" +:+ hash)); [|done].
    by destruct (os_Stat h ("/var/log/pods/" +:+ v1.UID pod)).
  - by destruct (os_Stat h ("/var/log/pods/" +:+ v1.UID pod)).
Qed.

Lemma on_pod_probes pt h st pod :
  stat_paths (snd (on_pod pt h st pod)) =
  stat_paths (snd (determineLogPattern h pod (legacyLogPaths pt))).
Proof.
  assert (Hr : stat_paths (resolve_calls pt h pod) =
               stat_paths (snd (determineLogPattern h pod (legacyLogPaths pt)))).
  { unfold resolve_calls. rewrite stat_paths_app.
    destruct (snd (fst _)); cbn; by rewrite app_nil_r. }
  destruct (NewLineHandlerFactoryFromConfig h (config pt) (v1.UID pod)) as [err|hf] eqn:Hf.
  - rewrite (on_pod_failed _ _ _ _ _ Hf). cbn [snd].
    rewrite stat_paths_app, Hr. cbn. by rewrite app_nil_r.
  - rewrite (on_pod_started _ _ _ _ _ Hf). cbn [snd].
    rewrite stat_paths_app, Hr. cbn. by rewrite app_nil_r.
Qed.

Lemma on_deleted_probes st uid : stat_paths (snd (on_deleted st uid)) = [].
Proof. unfold on_deleted. by destruct (watcherMap st !! uid). Qed.

Lemma drain_probes order m : stat_paths (drain order m) = [].
Proof. unfold drain. by induction (range order m). Qed.

(** The probes of a whole run are those of its loop. *)
Lemma run_probes pt order events :
  stat_paths (snd (Start pt order events)) = [] \/
  stat_paths (snd (Start pt order events)) = stat_paths (snd (loop pt events initial)).
Proof.
  unfold Start, run. destruct (config.LabelSelector (config pt)); [|by left].
  right. unfold_M. destruct (loop pt events initial) as [[st []] tr]; cbn.
  - by rewrite stat_paths_app, app_nil_r.
  - fold (stat_paths tr).
    change (omap _ (tr ++ ?d ++ [WgDone]))
      with (stat_paths (tr ++ drain order (watcherMap st) ++ [WgDone])).
    rewrite !stat_paths_app, drain_probes. cbn. by rewrite app_nil_r.
Qed.

Lemma loop_probes_legacy pt events st :
  legacyLogPaths pt = true -> stat_paths (snd (loop pt events st)) = [].
Proof.
  intros Hl. revert st. induction events as [|[h ev] rest IH]; intros st; [done|].
  destruct ev as [pod|uid|].
  - rewrite loop_cons_pod. cbn [snd].
    by rewrite stat_paths_app, on_pod_probes, determineLogPattern_probes, Hl, IH.
  - rewrite loop_cons_deleted. cbn [snd].
    by rewrite stat_paths_app, on_deleted_probes, IH.
  - done.
Qed.

(** X7: in legacy mode a run never calls [os.Stat], whatever events it
    receives. *)
Theorem X7_legacy_run_never_probes (pt : PodSetTailer) (order : RangeOrder)
    (events : list (Host * Event)) :
  legacyLogPaths pt = true ->
  stat_paths (snd (Start pt order events)) = [].
Proof.
  intros Hl. destruct (run_probes pt order events) as [H|H]; [done|].
  rewrite H. by apply loop_probes_legacy.
Qed.

(** Two pods added in legacy mode. *)
Lemma X7_legacy_run_never_probes_witness :
  stat_paths (snd (Start (sample.agent "" "app" true) sample.in_map_order
                     [(sample.bare, PodAdded sample.web1);
                      (sample.misconfigured, PodAdded sample.web1)])) = [].
Proof. by apply X7_legacy_run_never_probes. Defined.

Lemma loop_probes pt events st p :
  p ∈ stat_paths (snd (loop pt events st)) ->
  exists h pod, (h, PodAdded pod) ∈ events /\
    (p = "/var/log/pods/" +:+ v1.UID pod \/
     exists hash, v1.Annotations pod !! configHash = Some hash /\
                  p = "/var/log/pods/" +:+ hash).
Proof.
  revert st. induction events as [|[h ev] rest IH]; intros st Hp.
  - by apply elem_of_nil in Hp.
  - destruct ev as [pod|uid|].
    + rewrite loop_cons_pod in Hp. cbn [snd] in Hp.
      rewrite stat_paths_app in Hp. apply elem_of_app in Hp as [Hp|Hp].
      * exists h, pod. split; [by left|].
        rewrite on_pod_probes, determineLogPattern_probes in Hp.
        destruct (legacyLogPaths pt); [by apply elem_of_nil in Hp|].
        destruct (v1.Annotations pod !! configHash) as [hash|].
        -- apply elem_of_cons in Hp as [->|Hp]; [right; by exists hash|].
           destruct (found h _); [by apply elem_of_nil in Hp|].
           apply list_elem_of_singleton in Hp. by left.
        -- apply list_elem_of_singleton in Hp. by left.
      * destruct (IH _ Hp) as (h' & pod' & Hin & H). exists h', pod'.
        split; [by right|done].
    + rewrite loop_cons_deleted in Hp. cbn [snd] in Hp.
      rewrite stat_paths_app, on_deleted_probes in Hp.
      destruct (IH _ Hp) as (h' & pod' & Hin & H). exists h', pod'.
      split; [by right|done].
    + by apply elem_of_nil in Hp.
Qed.

Lemma loop_probes_bound pt events st :
  length (stat_paths (snd (loop pt events st))) <= 2 * length (added_uids events).
Proof.
  revert st. induction events as [|[h ev] rest IH]; intros st; [done|].
  destruct ev as [pod|uid|].
  - rewrite loop_cons_pod. cbn [snd].
    rewrite stat_paths_app, length_app, on_pod_probes, determineLogPattern_probes.
    specialize (IH (fst (on_pod pt h st pod))).
    change (added_uids ((h, PodAdded pod) :: rest)) with (v1.UID pod :: added_uids rest).
    cbn [length].
    destruct (legacyLogPaths pt); [cbn; lia|].
    destruct (v1.Annotations pod !! configHash); [|cbn; lia].
    destruct (found h _); cbn; lia.
  - rewrite loop_cons_deleted. cbn [snd].
    rewrite stat_paths_app, on_deleted_probes. apply IH.
  - cbn. lia.
Qed.

(** X8: every path that a run hands to [os.Stat] is
    [/var/log/pods/<x>] where [<x>] is the UID or the config hash of a
    pod of an added event, and a run makes at most two such calls per
    added event. *)
Theorem X8_run_probes (pt : PodSetTailer) (order : RangeOrder)
    (events : list (Host * Event)) :
  let probes := stat_paths (snd (Start pt order events)) in
  (forall p, p ∈ probes ->
     exists h pod, (h, PodAdded pod) ∈ events /\
       (p = "/var/log/pods/" +:+ v1.UID pod \/
        exists hash, v1.Annotations pod !! configHash = Some hash /\
                     p = "/var/log/pods/" +:+ hash))
  /\ length probes <= 2 * length (added_uids events).
Proof.
  cbv zeta. destruct (run_probes pt order events) as [H|H]; rewrite H.
  - split; [|cbn; lia]. intros p Hp. by apply elem_of_nil in Hp.
  - split; [intros p; apply loop_probes|apply loop_probes_bound].
Qed.

(** The probes for a pod with a hash whose directory is missing. *)
Lemma X8_run_probes_witness :
  let pod := {| v1.Name := "etcd"; v1.Namespace := "kube-system"; v1.UID := "u-1";
                v1.Annotations := {[ configHash := "abc123" ]} |} in
  length (stat_paths (snd (Start (sample.agent "" "" false) sample.in_map_order
                             [(sample.bare, PodAdded pod)]))) <= 2.
Proof.
  intros pod.
  destruct (X8_run_probes (sample.agent "" "" false) sample.in_map_order
              [(sample.bare, PodAdded pod)]) as [_ H].
  exact H.
Defined.

(** ** Whole runs *)

Lemma Start_result pt order events :
  Start pt order events =
  match config.LabelSelector (config pt) with
  | None => (Panicked, [WgAdd 1; WgDone])
  | Some user =>
      (match snd (fst (loop pt events initial)) with
       | Waiting => Blocked
       | Broke => Returned
       end,
       [WgAdd 1;
        NewPodWatcher (config.Namespace (config pt)) (labelSelector user) (nodeSelector pt)]
       ++ snd (loop pt events initial)
       ++ match snd (fst (loop pt events initial)) with
          | Waiting => []
          | Broke => drain order (watcherMap (fst (fst (loop pt events initial))))
                     ++ [WgDone]
          end)
  end.
Proof.
  unfold Start, run. destruct (config.LabelSelector (config pt)); [|done].
  unfold_M. destruct (loop pt events initial) as [[st []] tr]; cbn [fst snd].
  - by rewrite !app_nil_r.
  - reflexivity.
Qed.

Lemma constructed_app tr1 tr2 :
  constructed (tr1 ++ tr2) = constructed tr1 ++ constructed tr2.
Proof. apply omap_app. Qed.

Lemma quiet_constructed tr :
  Forall (fun e => match e with Stat _ | Log _ _ _ => True | _ => False end) tr ->
  constructed tr = [].
Proof. induction 1 as [|e tr He _ IH]; [done|]. by destruct e. Qed.

Lemma on_pod_constructed pt h st pod :
  constructed (snd (on_pod pt h st pod)) = starts (snd (on_pod pt h st pod)).
Proof.
  pose proof (quiet_constructed _ (resolve_calls_quiet pt h pod)) as Hq.
  destruct (NewLineHandlerFactoryFromConfig h (config pt) (v1.UID pod)) as [err|hf] eqn:Hf.
  - destruct (on_pod_failed_marks pt h st pod err Hf) as [-> _].
    rewrite (on_pod_failed _ _ _ _ _ Hf). cbn [snd]. by rewrite constructed_app, Hq.
  - destruct (on_pod_started_marks pt h st pod hf Hf) as [-> _].
    rewrite (on_pod_started _ _ _ _ _ Hf). cbn [snd]. by rewrite constructed_app, Hq.
Qed.

Lemma on_pod_allocated pt h st pod :
  starts (snd (on_pod pt h st pod)) =
    seq (allocated st) (allocated (fst (on_pod pt h st pod)) - allocated st)
  /\ allocated st <= allocated (fst (on_pod pt h st pod))
  /\ stops (snd (on_pod pt h st pod)) = [].
Proof.
  destruct (NewLineHandlerFactoryFromConfig h (config pt) (v1.UID pod)) as [err|hf] eqn:Hf.
  - destruct (on_pod_failed_marks pt h st pod err Hf) as [-> ->].
    rewrite (on_pod_failed _ _ _ _ _ Hf). cbn [fst]. by rewrite Nat.sub_diag.
  - destruct (on_pod_started_marks pt h st pod hf Hf) as [-> ->].
    rewrite (on_pod_started _ _ _ _ _ Hf). cbn [fst allocated].
    replace (S (allocated st) - allocated st) with 1 by lia. split; [done|]. split; [lia|done].
Qed.

(** What the loop keeps about the order of its calls: the watchers
    started are those constructed, at the addresses 0, 1, 2, ..., and no
    watcher is stopped twice. *)
Lemma loop_discipline pt events st tr :
  registry_sound st tr ->
  starts tr = seq 0 (allocated st) -> constructed tr = starts tr -> NoDup (stops tr) ->
  let r := loop pt events st in
  starts (tr ++ snd r) = seq 0 (allocated (fst (fst r)))
  /\ constructed (tr ++ snd r) = starts (tr ++ snd r)
  /\ NoDup (stops (tr ++ snd r)).
Proof.
  revert st tr. induction events as [|[h ev] rest IH]; intros st tr Hs H1 H2 H3.
  - cbn. by rewrite app_nil_r.
  - destruct ev as [pod|uid|].
    + rewrite loop_cons_pod. cbn [fst snd]. rewrite app_assoc.
      destruct (on_pod_allocated pt h st pod) as (Ha & Hle & Hb).
      apply IH; [by apply on_pod_sound| | |].
      * rewrite starts_app, H1, Ha.
        replace (allocated (fst (on_pod pt h st pod)))
          with (allocated st + (allocated (fst (on_pod pt h st pod)) - allocated st))
          at 2 by lia.
        by rewrite seq_app.
      * by rewrite constructed_app, starts_app, H2, on_pod_constructed.
      * by rewrite stops_app, Hb, app_nil_r.
    + rewrite loop_cons_deleted. cbn [fst snd]. rewrite app_assoc.
      apply IH; [by apply on_deleted_sound| | |].
      * destruct (watcherMap st !! uid) as [pw|] eqn:Hpw.
        -- rewrite (on_deleted_present _ _ _ Hpw). cbn [fst snd allocated].
           rewrite starts_app. cbn. by rewrite app_nil_r.
        -- rewrite (on_deleted_absent _ _ Hpw). cbn [fst snd]. by rewrite app_nil_r.
      * destruct (watcherMap st !! uid) as [pw|] eqn:Hpw.
        -- rewrite (on_deleted_present _ _ _ Hpw). cbn [fst snd].
           rewrite constructed_app, starts_app. cbn. by rewrite !app_nil_r.
        -- rewrite (on_deleted_absent _ _ Hpw). cbn [fst snd]. by rewrite !app_nil_r.
      * destruct (watcherMap st !! uid) as [pw|] eqn:Hpw.
        -- rewrite (on_deleted_present _ _ _ Hpw). cbn [fst snd].
           rewrite stops_app. cbn. apply NoDup_app. split; [done|]. split.
           ++ intros w Hw Hin. apply list_elem_of_singleton in Hin as ->.
              destruct Hs as (S1 & _). by destruct (S1 uid pw Hpw).
           ++ apply NoDup_singleton.
        -- rewrite (on_deleted_absent _ _ Hpw). cbn [fst snd]. by rewrite app_nil_r.
    + rewrite loop_cons_stop. cbn [fst snd].
      rewrite starts_app, constructed_app, stops_app. cbn. by rewrite !app_nil_r.
Qed.

Lemma drain_marks order m :
  starts (drain order m) = [] /\ constructed (drain order m) = [].
Proof. unfold drain. by induction (range order m). Qed.

Lemma drain_stops_registered order m w :
  w ∈ stops (drain order m) <-> exists uid pw, m !! uid = Some pw /\ tailer.addr pw = w.
Proof.
  unfold stops, drain. rewrite list_elem_of_omap. split.
  - intros (e & He & Hw). apply list_elem_of_fmap in He as ([uid pw] & -> & Hkw).
    rewrite (range_perm order) in Hkw. apply elem_of_map_to_list in Hkw.
    cbn in Hw. inversion Hw; subst. by exists uid, pw.
  - intros (uid & pw & Hpw & <-). exists (WatcherStop (tailer.addr pw)).
    split; [|done]. apply list_elem_of_fmap. exists (uid, pw). split; [done|].
    rewrite (range_perm order). by apply elem_of_map_to_list.
Qed.

(** The starts, constructions and stops of a whole run, from those of
    its loop. *)
Lemma run_marks pt order events user :
  config.LabelSelector (config pt) = Some user ->
  let r := loop pt events initial in
  let tr := snd (Start pt order events) in
  starts tr = starts (snd r)
  /\ constructed tr = constructed (snd r)
  /\ stops tr = stops (snd r) ++
                match snd (fst r) with
                | Waiting => []
                | Broke => stops (drain order (watcherMap (fst (fst r))))
                end.
Proof.
  intros Hsel. cbv zeta. rewrite Start_result, Hsel. cbn [snd].
  destruct (loop pt events initial) as [[st ex] trl]. cbn [fst snd].
  destruct (drain_marks order (watcherMap st)) as [Hd1 Hd2].
  rewrite !starts_app, !constructed_app, !stops_app.
  destruct ex; cbn; rewrite ?starts_app, ?constructed_app, ?stops_app, ?Hd1, ?Hd2; cbn;
    by rewrite ?app_nil_r.
Qed.

Lemma stops_with_drain_distinct order st tr :
  registry_sound st tr -> NoDup (stops tr) ->
  NoDup (stops tr ++ stops (drain order (watcherMap st))).
Proof.
  intros Hs Hn. apply NoDup_app. split; [done|]. split.
  - intros w Hw Hin. apply drain_stops_registered in Hin as (uid & pw & Hpw & <-).
    destruct Hs as (S1 & _). by destruct (S1 uid pw Hpw).
  - by apply (drain_addresses_distinct order st tr).
Qed.

(** X9: in every run, the watchers told to start are exactly the ones
    constructed, in the same order, each once (their addresses are 0, 1,
    ..., k-1); no watcher is told to stop twice, the final drain
    included; and only watchers that were told to start are told to
    stop. *)
Theorem X9_run_call_discipline (pt : PodSetTailer) (order : RangeOrder)
    (events : list (Host * Event)) :
  let tr := snd (Start pt order events) in
  (exists k, starts tr = seq 0 k)
  /\ constructed tr = starts tr
  /\ NoDup (starts tr)
  /\ NoDup (stops tr)
  /\ (forall w, w ∈ stops tr -> w ∈ starts tr).
Proof.
  cbv zeta.
  destruct (config.LabelSelector (config pt)) as [user|] eqn:Hsel.
  2:{ rewrite Start_result, Hsel. cbn. split; [by exists 0|].
      repeat split; try apply NoDup_nil_2.
      intros w Hw. by apply elem_of_nil in Hw. }
  destruct (run_marks pt order events user Hsel) as (-> & -> & ->).
  pose proof (loop_sound pt events initial [] registry_sound_initial) as Hs.
  pose proof (loop_discipline pt events initial [] registry_sound_initial
                eq_refl eq_refl (NoDup_nil_2)) as (D1 & D2 & D3).
  rewrite app_nil_l in *. cbv zeta in *.
  destruct (loop pt events initial) as [[st ex] trl]. cbn [fst snd] in *.
  split; [by eexists|]. split; [done|]. split; [rewrite D1; apply NoDup_seq|]. split.
  - destruct ex; [by rewrite app_nil_r|]. by apply stops_with_drain_distinct.
  - destruct Hs as (S1 & S2 & S3 & S4).
    intros w Hw. apply elem_of_app in Hw as [Hw|Hw]; [by apply S3|].
    destruct ex; [by apply elem_of_nil in Hw|].
    apply drain_stops_registered in Hw as (uid & pw & Hpw & <-).
    by destruct (S1 uid pw Hpw).
Qed.

(** X10: when a run returns and no added event arrived for a UID that
    was registered at that time, every watcher that was told to start
    has been told to stop, exactly once: nothing is left running. *)
Theorem X10_returned_run_stops_all (pt : PodSetTailer) (order : RangeOrder)
    (events : list (Host * Event)) :
  adds_are_fresh pt events initial ->
  fst (Start pt order events) = Returned ->
  starts (snd (Start pt order events)) ≡ₚ stops (snd (Start pt order events)).
Proof.
  intros Hfresh. rewrite Start_result at 1.
  destruct (config.LabelSelector (config pt)) as [user|] eqn:Hsel; [|done].
  cbn [fst]. intros Hret.
  destruct (run_marks pt order events user Hsel) as (-> & _ & ->).
  pose proof (loop_sound pt events initial [] registry_sound_initial) as Hs.
  pose proof (loop_discipline pt events initial [] registry_sound_initial
                eq_refl eq_refl (NoDup_nil_2)) as (D1 & _ & D3).
  pose proof (loop_complete pt events initial [] registry_sound_initial
                registry_complete_initial Hfresh) as Hc.
  rewrite app_nil_l in *. cbv zeta in *.
  destruct (loop pt events initial) as [[st ex] trl]. cbn [fst snd] in *.
  destruct ex; [done|].
  apply NoDup_Permutation.
  - rewrite D1. apply NoDup_seq.
  - by apply stops_with_drain_distinct.
  - intros w. split.
    + intros Hw. apply elem_of_app.
      destruct (decide (w ∈ stops trl)) as [Hin|Hnin]; [by left|right].
      apply drain_stops_registered. by apply (Hc w).
    + destruct Hs as (S1 & S2 & S3 & S4).
      intros Hw. apply elem_of_app in Hw as [Hw|Hw]; [by apply S3|].
      apply drain_stops_registered in Hw as (uid & pw & Hpw & <-).
      by destruct (S1 uid pw Hpw).
Qed.

(** Two pods added, one deleted, then the shutdown request. *)
Lemma X10_returned_run_stops_all_witness :
  let other := {| v1.Name := "db-0"; v1.Namespace := "default"; v1.UID := "u-2";
                  v1.Annotations := ∅ |} in
  let events := [(sample.bare, PodAdded sample.web1); (sample.bare, PodAdded other);
                 (sample.bare, PodDeleted "u-1"); (sample.bare, StopRequested)] in
  starts (snd (Start (sample.agent "" "" true) sample.in_map_order events))
  ≡ₚ stops (snd (Start (sample.agent "" "" true) sample.in_map_order events)).
Proof.
  intros other events. apply X10_returned_run_stops_all.
  - cbn. split; [reflexivity|]. split; [|exact I]. vm_compute. reflexivity.
  - vm_compute. reflexivity.
Defined.

Lemma loop_balance pt events st tr k :
  length (starts tr) = length (stops tr) + size (watcherMap st) + k ->
  let r := loop pt events st in
  length (starts (tr ++ snd r)) =
  length (stops (tr ++ snd r)) + size (watcherMap (fst (fst r))) + k
  + replacements pt events st.
Proof.
  revert st tr k. induction events as [|[h ev] rest IH]; intros st tr k Hbal.
  - cbn. rewrite app_nil_r. lia.
  - destruct ev as [pod|uid|].
    + rewrite loop_cons_pod. cbn [fst snd replacements]. rewrite app_assoc.
      destruct (NewLineHandlerFactoryFromConfig h (config pt) (v1.UID pod))
        as [err|hf] eqn:Hf.
      * destruct (on_pod_failed_marks pt h st pod err Hf) as [M1 M2].
        specialize (IH (fst (on_pod pt h st pod)) (tr ++ snd (on_pod pt h st pod)) k).
        cbv zeta in IH. rewrite IH.
        -- destruct (watcherMap st !! v1.UID pod); lia.
        -- rewrite starts_app, stops_app, M1, M2, !app_nil_r.
           by rewrite (on_pod_failed _ _ _ _ _ Hf).
      * destruct (on_pod_started_marks pt h st pod hf Hf) as [M1 M2].
        destruct (watcherMap st !! v1.UID pod) as [old|] eqn:Hold.
        -- specialize (IH (fst (on_pod pt h st pod)) (tr ++ snd (on_pod pt h st pod))
                         (k + 1)).
           cbv zeta in IH. rewrite IH; [lia|].
           rewrite starts_app, stops_app, M1, M2, app_nil_r, length_app.
           rewrite (on_pod_started _ _ _ _ _ Hf). cbn [fst watcherMap length].
           rewrite map_size_insert_Some by (by rewrite Hold). lia.
        -- specialize (IH (fst (on_pod pt h st pod)) (tr ++ snd (on_pod pt h st pod)) k).
           cbv zeta in IH. rewrite IH; [lia|].
           rewrite starts_app, stops_app, M1, M2, app_nil_r, length_app.
           rewrite (on_pod_started _ _ _ _ _ Hf). cbn [fst watcherMap length].
           rewrite map_size_insert_None by done. lia.
    + rewrite loop_cons_deleted. cbn [fst snd replacements]. rewrite app_assoc.
      apply IH. destruct (watcherMap st !! uid) as [pw|] eqn:Hpw.
      * rewrite (on_deleted_present _ _ _ Hpw). cbn [fst snd watcherMap].
        rewrite starts_app, stops_app. cbn [starts stops omap]. cbn.
        rewrite app_nil_r, length_app. cbn [length].
        rewrite map_size_delete_Some by (by rewrite Hpw).
        assert (size (watcherMap st) <> 0)
          by (apply map_size_ne_0_lookup_2 with uid; by rewrite Hpw).
        lia.
      * rewrite (on_deleted_absent _ _ Hpw). cbn [fst snd]. by rewrite app_nil_r.
    + rewrite loop_cons_stop. cbn [fst snd replacements].
      rewrite starts_app, stops_app. cbn. rewrite !app_nil_r. lia.
Qed.

Lemma drain_length order m : length (stops (drain order m)) = size m.
Proof.
  assert (H : stops (drain order m) =
              (fun kw => tailer.addr (snd kw)) <$> range order m).
  { unfold drain. induction (range order m) as [|kw l IH]; [done|].
    cbn. by rewrite <- IH. }
  by rewrite H, length_fmap, (range_perm order), length_map_to_list.
Qed.

(** X11: when a run returns, the number of watchers that were told to
    start and never told to stop is the number of added events that
    replaced a registered watcher. *)
Theorem X11_returned_run_leaks_replaced (pt : PodSetTailer) (order : RangeOrder)
    (events : list (Host * Event)) :
  fst (Start pt order events) = Returned ->
  length (starts (snd (Start pt order events))) =
  length (stops (snd (Start pt order events))) + replacements pt events initial.
Proof.
  rewrite Start_result at 1.
  destruct (config.LabelSelector (config pt)) as [user|] eqn:Hsel; [|done].
  cbn [fst]. intros Hret.
  destruct (run_marks pt order events user Hsel) as (-> & _ & ->).
  pose proof (loop_balance pt events initial [] 0) as Hb.
  cbv zeta in Hb. cbn [app] in Hb.
  destruct (loop pt events initial) as [[st ex] trl]. cbn [fst snd] in *.
  destruct ex; [done|].
  rewrite length_app, drain_length, Hb; [lia|]. cbn. by rewrite map_size_empty.
Qed.

(** The same pod added twice, then the shutdown request: one watcher is
    left running. *)
Lemma X11_returned_run_leaks_replaced_witness :
  let events := [(sample.bare, PodAdded sample.web1); (sample.bare, PodAdded sample.web1);
                 (sample.bare, StopRequested)] in
  length (starts (snd (Start (sample.agent "" "" true) sample.in_map_order events))) =
  length (stops (snd (Start (sample.agent "" "" true) sample.in_map_order events))) + 1.
Proof.
  intros events.
  exact (X11_returned_run_leaks_replaced (sample.agent "" "" true) sample.in_map_order
           events eq_refl).
Defined.

(** ** How the handlers compose *)

(** X12: an added event that starts a watcher, followed by a deleted
    event for the same UID, stops exactly the watcher just started and
    leaves the registry without an entry for that UID; the other entries
    are those from before the two events, so the registry is back where
    it was when the UID was not registered. *)
Theorem X12_added_then_deleted (pt : PodSetTailer) (h : Host) (st : LoopState)
    (pod : v1.Pod) (hf : handlers.LineHandlerFactory) :
  NewLineHandlerFactoryFromConfig h (config pt) (v1.UID pod) = inr hf ->
  let st1 := fst (on_pod pt h st pod) in
  let after := on_deleted st1 (v1.UID pod) in
  starts (snd (on_pod pt h st pod)) = [allocated st]
  /\ stops (snd after) = [allocated st]
  /\ watcherMap (fst after) = delete (v1.UID pod) (watcherMap st)
  /\ (watcherMap st !! v1.UID pod = None -> watcherMap (fst after) = watcherMap st).
Proof.
  intros Hf st1 after.
  destruct (on_pod_started_marks pt h st pod hf Hf) as [M1 _].
  assert (Hst1 : watcherMap st1 !! v1.UID pod =
                 Some (new_watcher pt h (allocated st) pod hf)).
  { subst st1. rewrite (on_pod_started _ _ _ _ _ Hf). cbn. apply lookup_insert_eq. }
  assert (Hmap : watcherMap (fst after) = delete (v1.UID pod) (watcherMap st)).
  { subst after. rewrite (on_deleted_present _ _ _ Hst1). cbn [fst watcherMap].
    subst st1. rewrite (on_pod_started _ _ _ _ _ Hf). cbn [fst watcherMap].
    apply delete_insert_eq. }
  split; [done|]. split; [|split; [done|]].
  - subst after. by rewrite (on_deleted_present _ _ _ Hst1).
  - intros Hnone. rewrite Hmap. by apply delete_id.
Qed.

(** A pod added to the empty registry and deleted again. *)
Lemma X12_added_then_deleted_witness :
  watcherMap
    (fst (on_deleted (fst (on_pod (sample.agent "" "" true) sample.bare initial sample.web1))
            "u-1")) = ∅.
Proof.
  destruct (X12_added_then_deleted (sample.agent "" "" true) sample.bare initial
              sample.web1 {| handlers.processorUID := "u-1" |} eq_refl) as (_ & _ & _ & H).
  apply H. apply lookup_empty.
Defined.

(** X13: a second deleted event for the same UID, right after the
    first, makes no call and changes nothing, whether or not the first
    one found a watcher. *)
Theorem X13_deleted_twice (st : LoopState) (uid : string) :
  on_deleted (fst (on_deleted st uid)) uid = (fst (on_deleted st uid), []).
Proof.
  apply on_deleted_absent. destruct (watcherMap st !! uid) as [pw|] eqn:Hpw.
  - rewrite (on_deleted_present _ _ _ Hpw). cbn. apply lookup_delete_eq.
  - by rewrite (on_deleted_absent _ _ Hpw).
Qed.

(** X14: every entry of the registry comes from an added event of the
    sequence: its key is the UID of that event's pod, and its watcher is
    the one built for that pod on the host's answers at that event, with
    the pattern resolved then and the filter of the configured
    container. *)
Theorem X14_registry_entries_come_from_added_events (pt : PodSetTailer)
    (events : list (Host * Event)) (uid : string) (w : tailer.PathWatcher) :
  watcherMap (fst (fst (loop pt events initial))) !! uid = Some w ->
  exists h pod hf,
    (h, PodAdded pod) ∈ events
    /\ v1.UID pod = uid
    /\ NewLineHandlerFactoryFromConfig h (config pt) uid = inr hf
    /\ w = new_watcher pt h (tailer.addr w) pod hf.
Proof.
  assert (Hgen : forall st,
    watcherMap (fst (fst (loop pt events st))) !! uid = Some w ->
    watcherMap st !! uid = Some w \/
    exists h pod hf,
      (h, PodAdded pod) ∈ events
      /\ v1.UID pod = uid
      /\ NewLineHandlerFactoryFromConfig h (config pt) uid = inr hf
      /\ w = new_watcher pt h (tailer.addr w) pod hf).
  { induction events as [|[h ev] rest IH]; intros st Hw; [by left|].
    destruct ev as [pod|uid'|].
    - rewrite loop_cons_pod in Hw. cbn [fst] in Hw.
      destruct (IH _ Hw) as [Hst|(h' & pod' & hf' & Hin & Hrest)].
      + destruct (NewLineHandlerFactoryFromConfig h (config pt) (v1.UID pod))
          as [err|hf] eqn:Hf.
        * rewrite (on_pod_failed _ _ _ _ _ Hf) in Hst. by left.
        * rewrite (on_pod_started _ _ _ _ _ Hf) in Hst. cbn in Hst.
          destruct (decide (v1.UID pod = uid)) as [Heq|Hne].
          -- rewrite Heq, lookup_insert_eq in Hst. inversion Hst as [Hw'].
             right. exists h, pod, hf. split; [by left|]. split; [done|].
             split; [by rewrite <- Heq|done].
          -- rewrite lookup_insert_ne in Hst by done. by left.
      + right. exists h', pod', hf'. split; [by right|done].
    - rewrite loop_cons_deleted in Hw. cbn [fst] in Hw.
      destruct (IH _ Hw) as [Hst|(h' & pod' & hf' & Hin & Hrest)].
      + left. destruct (watcherMap st !! uid') as [pw|] eqn:Hpw.
        * rewrite (on_deleted_present _ _ _ Hpw) in Hst. cbn in Hst.
          by apply lookup_delete_Some in Hst as [_ Hst].
        * by rewrite (on_deleted_absent _ _ Hpw) in Hst.
      + right. exists h', pod', hf'. split; [by right|done].
    - by left. }
  intros Hw. destruct (Hgen initial Hw) as [H|H]; [|done].
  cbn in H. by rewrite lookup_empty in H.
Qed.

(** The entry left by an added event on the bare host. *)
Lemma X14_registry_entries_come_from_added_events_witness :
  exists h pod hf,
    (h, PodAdded pod) ∈ [(sample.bare, PodAdded sample.web1)]
    /\ v1.UID pod = "u-1"
    /\ NewLineHandlerFactoryFromConfig h (config (sample.agent "" "" true)) "u-1" = inr hf
    /\ new_watcher (sample.agent "" "" true) sample.bare 0 sample.web1
         {| handlers.processorUID := "u-1" |}
       = new_watcher (sample.agent "" "" true) h 0 pod hf.
Proof.
  exact (X14_registry_entries_come_from_added_events (sample.agent "" "" true)
           [(sample.bare, PodAdded sample.web1)] "u-1"
           (new_watcher (sample.agent "" "" true) sample.bare 0 sample.web1
              {| handlers.processorUID := "u-1" |}) eq_refl).
Defined.

(** X15: as long as no shutdown request is received the run does not
    return: the wait group is not signalled, no receive from the stop
    channel happens, and [Stop] cannot have returned at any point of the
    trace. *)
Theorem X15_run_without_request_blocks (pt : PodSetTailer) (order : RangeOrder)
    (user : string) (events : list (Host * Event)) :
  config.LabelSelector (config pt) = Some user ->
  Forall not_stop events ->
  fst (Start pt order events) = Blocked
  /\ (WgDone ∉ snd (Start pt order events))
  /\ (forall tr rest, snd (Start pt order events) = tr ++ rest -> ~ Stop_returns tr).
Proof.
  intros Hsel Hev. rewrite Start_result, Hsel.
  destruct (loop_waiting pt events initial Hev) as [Hex Hbody].
  rewrite Hex. cbn [fst snd]. rewrite app_nil_r.
  assert (Hno : forall e, e ∈ snd (loop pt events initial) -> in_loop_body e = true).
  { intros e He. rewrite forallb_forall in Hbody. apply Hbody. by apply list_elem_of_In. }
  split; [done|]. split.
  - intros Hin. apply elem_of_cons in Hin as [|Hin]; [done|].
    apply elem_of_cons in Hin as [|Hin]; [done|]. by apply Hno in Hin.
  - intros tr rest Heq [Hrecv _].
    assert (Hin : RecvStop ∈ tr ++ rest) by (apply elem_of_app; left; by apply list_elem_of_In).
    rewrite <- Heq in Hin.
    apply elem_of_cons in Hin as [|Hin]; [done|].
    apply elem_of_cons in Hin as [|Hin]; [done|]. by apply Hno in Hin.
Qed.

(** A run that received two events and no request. *)
Lemma X15_run_without_request_blocks_witness :
  fst (Start (sample.agent "" "" true) sample.in_map_order
         [(sample.bare, PodAdded sample.web1); (sample.bare, PodDeleted "u-1")]) = Blocked.
Proof.
  destruct (X15_run_without_request_blocks (sample.agent "" "" true) sample.in_map_order
              "" [(sample.bare, PodAdded sample.web1); (sample.bare, PodDeleted "u-1")]
              eq_refl) as [H _]; [|exact H].
  repeat constructor; discriminate.
Defined.


(** ** The hash-keyed filter against the UID directory *)




